(** * Wikilink interpretation engine of eleventy-plugin-interlinker

    A shallow embedding of [src/wikilink-parser.js] (class [WikilinkParser]):
    the link grammar [wikiLinkRegExp], [isImageFile], [parseSingle],
    [parseMultiple] and [find], together with the two shared side tables
    (the link cache and the dead-link set) that the constructor receives.

    JavaScript strings are sequences of UTF-16 code units; they are modelled
    as [list N], one [N] per code unit, so that the string primitives the
    parser uses ([trim], [split], [startsWith], regular expressions without
    the [u] flag) act on exactly the units the engine sees. *)

From Stdlib Require Import NArith List Bool Ascii String Lia.
From stdpp Require Import gmap list.

Open Scope N_scope.
Open Scope list_scope.

(** ** JavaScript string primitives *)

Module Js.

Abbreviation jsstring := (list N).

(** Code unit of an ASCII character, and of an ASCII literal. *)
Definition ch (a : ascii) : N := N_of_ascii a.

Definition lit (s : string) : jsstring := map N_of_ascii (list_ascii_of_string s).

(** The three shapes a value such as [href], [stubUrl] or [page.url] takes. *)
Inductive jsval :=
| undefined
| jfalse
| jstr (s : jsstring).

(** ECMAScript LineTerminator. *)
Definition is_line_terminator (c : N) : bool :=
  (c =? 10) || (c =? 13) || (c =? 8232) || (c =? 8233).

(** ECMAScript WhiteSpace and LineTerminator: what [String.prototype.trim]
    strips and what [\s] matches. *)
Definition is_space (c : N) : bool :=
  (c =? 9) || (c =? 10) || (c =? 11) || (c =? 12) || (c =? 13) || (c =? 32)
  || (c =? 160) || (c =? 5760) || ((8192 <=? c) && (c <=? 8202))
  || (c =? 8232) || (c =? 8233) || (c =? 8239) || (c =? 8287)
  || (c =? 12288) || (c =? 65279).

Fixpoint trimStart (s : jsstring) : jsstring :=
  match s with
  | [] => []
  | c :: r => if is_space c then trimStart r else s
  end.

Definition trimEnd (s : jsstring) : jsstring := rev (trimStart (rev s)).

Definition trim (s : jsstring) : jsstring := trimEnd (trimStart s).

(** [s.startsWith(p)] *)
Fixpoint startsWith (p s : jsstring) : bool :=
  match p, s with
  | [], _ => true
  | _ :: _, [] => false
  | a :: p', b :: s' => (a =? b) && startsWith p' s'
  end.

(** [s.endsWith(p)] *)
Definition endsWith (p s : jsstring) : bool := startsWith (rev p) (rev s).

(** [s.includes(c)] for a one-unit needle. *)
Definition includes (c : N) (s : jsstring) : bool := existsb (N.eqb c) s.

(** [s.split(sep)] for a one-unit separator: always at least one part. *)
Fixpoint split (sep : N) (s : jsstring) : list jsstring :=
  match s with
  | [] => [[]]
  | c :: r =>
      if c =? sep then [] :: split sep r
      else match split sep r with
           | [] => [[c]]
           | w :: ws => (c :: w) :: ws
           end
  end.

(** [a.join(sep)] *)
Fixpoint join (sep : jsstring) (l : list jsstring) : jsstring :=
  match l with
  | [] => []
  | [w] => w
  | w :: ws => w ++ sep ++ join sep ws
  end.

(** [s.slice(start, -k)] on strings and arrays, for [k > 0]. *)
Definition slice_to_end_minus {A} (start k : nat) (l : list A) : list A :=
  drop start (take (length l - k) l).

(** [s.at(-1)]: the last unit, [None] standing for [undefined]. *)
Definition at_last (s : jsstring) : option N := last s.

(** [s.replace(pat, rep)] with a string pattern: the first occurrence only. *)
Fixpoint replace_first (pat rep s : jsstring) : jsstring :=
  if startsWith pat s then rep ++ drop (length pat) s
  else match s with
       | [] => []
       | c :: r => c :: replace_first pat rep r
       end.

(** ASCII lower-casing.  [String.prototype.toLowerCase] also maps letters
    outside ASCII, but the only code units outside ASCII whose image contains
    an ASCII letter are U+0130 (to "i" followed by U+0307) and U+212A (to
    "k"); neither can complete one of the image extensions tested below, so
    [endsWith] on the result is decided by this restriction. *)
Definition lower (c : N) : N :=
  if (65 <=? c) && (c <=? 90) then c + 32 else c.

Definition toLowerCase (s : jsstring) : jsstring := map lower s.

(** Case-insensitive comparison of one unit against a lower-case ASCII
    letter, as the [i] flag does without the [u] flag (only the two ASCII
    cases canonicalize to the same unit). *)
Definition eq_ci (pat c : N) : bool := (lower c =? pat).

Fixpoint strip_prefix_ci (p s : jsstring) : option jsstring :=
  match p, s with
  | [], _ => Some s
  | _ :: _, [] => None
  | a :: p', b :: s' => if eq_ci a b then strip_prefix_ci p' s' else None
  end.

(** JavaScript truthiness of a string-or-undefined/null value. *)
Definition truthy (o : option jsstring) : bool :=
  match o with
  | Some (_ :: _) => true
  | _ => false
  end.

(** Interpolation of a possibly undefined string in a template literal. *)
Definition interpolate (o : option jsstring) : jsstring :=
  match o with
  | Some s => s
  | None => lit "undefined"
  end.

End Js.

Import Js.

(** ** Data model *)

(** A document of the page index, as far as [parseSingle] reads it:
    [page.url], [page.inputPath] and [page.data.title]. *)
Record Page := {
  url : jsval;
  inputPath : jsstring;
  data_title : option jsstring;
}.

(** The interpreted record.  [title] and [anchor] are [null] or a string;
    [href], [path] and [page] are absent until a step assigns them;
    [exists_] is the field [exists]. *)
Record WikilinkMeta := {
  title : option jsstring;
  name : jsstring;
  anchor : option jsstring;
  link : jsstring;
  isEmbed : bool;
  isPath : bool;
  exists_ : bool;
  resolvingFnName : jsstring;
  isImage : bool;
  href : jsval;
  path : option jsstring;
  page : option Page;
}.

Definition set_title (v : option jsstring) (m : WikilinkMeta) : WikilinkMeta :=
  {| title := v; name := name m; anchor := anchor m; link := link m;
     isEmbed := isEmbed m; isPath := isPath m; exists_ := exists_ m;
     resolvingFnName := resolvingFnName m; isImage := isImage m;
     href := href m; path := path m; page := page m |}.

Definition set_name (v : jsstring) (m : WikilinkMeta) : WikilinkMeta :=
  {| title := title m; name := v; anchor := anchor m; link := link m;
     isEmbed := isEmbed m; isPath := isPath m; exists_ := exists_ m;
     resolvingFnName := resolvingFnName m; isImage := isImage m;
     href := href m; path := path m; page := page m |}.

Definition set_anchor (v : option jsstring) (m : WikilinkMeta) : WikilinkMeta :=
  {| title := title m; name := name m; anchor := v; link := link m;
     isEmbed := isEmbed m; isPath := isPath m; exists_ := exists_ m;
     resolvingFnName := resolvingFnName m; isImage := isImage m;
     href := href m; path := path m; page := page m |}.

Definition set_isPath (v : bool) (m : WikilinkMeta) : WikilinkMeta :=
  {| title := title m; name := name m; anchor := anchor m; link := link m;
     isEmbed := isEmbed m; isPath := v; exists_ := exists_ m;
     resolvingFnName := resolvingFnName m; isImage := isImage m;
     href := href m; path := path m; page := page m |}.

Definition set_exists (v : bool) (m : WikilinkMeta) : WikilinkMeta :=
  {| title := title m; name := name m; anchor := anchor m; link := link m;
     isEmbed := isEmbed m; isPath := isPath m; exists_ := v;
     resolvingFnName := resolvingFnName m; isImage := isImage m;
     href := href m; path := path m; page := page m |}.

Definition set_resolvingFnName (v : jsstring) (m : WikilinkMeta) : WikilinkMeta :=
  {| title := title m; name := name m; anchor := anchor m; link := link m;
     isEmbed := isEmbed m; isPath := isPath m; exists_ := exists_ m;
     resolvingFnName := v; isImage := isImage m;
     href := href m; path := path m; page := page m |}.

Definition set_isImage (v : bool) (m : WikilinkMeta) : WikilinkMeta :=
  {| title := title m; name := name m; anchor := anchor m; link := link m;
     isEmbed := isEmbed m; isPath := isPath m; exists_ := exists_ m;
     resolvingFnName := resolvingFnName m; isImage := v;
     href := href m; path := path m; page := page m |}.

Definition set_href (v : jsval) (m : WikilinkMeta) : WikilinkMeta :=
  {| title := title m; name := name m; anchor := anchor m; link := link m;
     isEmbed := isEmbed m; isPath := isPath m; exists_ := exists_ m;
     resolvingFnName := resolvingFnName m; isImage := isImage m;
     href := v; path := path m; page := page m |}.

Definition set_path (v : option jsstring) (m : WikilinkMeta) : WikilinkMeta :=
  {| title := title m; name := name m; anchor := anchor m; link := link m;
     isEmbed := isEmbed m; isPath := isPath m; exists_ := exists_ m;
     resolvingFnName := resolvingFnName m; isImage := isImage m;
     href := href m; path := v; page := page m |}.

Definition set_page (v : option Page) (m : WikilinkMeta) : WikilinkMeta :=
  {| title := title m; name := name m; anchor := anchor m; link := link m;
     isEmbed := isEmbed m; isPath := isPath m; exists_ := exists_ m;
     resolvingFnName := resolvingFnName m; isImage := isImage m;
     href := href m; path := path m; page := v |}.

(** What [pageDirectory.findByLink(meta)] answers. *)
Record LookupResult := {
  lr_page : option Page;
  found : bool;
  foundByAlias : bool;
}.

(** The page index collaborator ([find-page.js], outside this file). *)
Record PageDirectoryService := {
  findByLink : WikilinkMeta -> LookupResult;
}.

(** The options [parseSingle] reads.  [resolvingFns] is a [Map] from names to
    render functions of which only [has] is consulted, hence its key set;
    [None] when the option is absent.  The tests also pass an
    [imageExtensions] option; the parser never reads it ([isImageFile] has
    its own list). *)
Record Options := {
  resolvingFns : option (gset jsstring);
  stubUrl : jsval;
}.

(** What [findImageFile] returns when it does not return [null]. *)
Record ImageResult := {
  ir_exists : bool;
  ir_href : jsstring;
  fullPath : jsstring;
}.

#[local] Set Warnings "-register-all".

(** What [fs.statSync] and [fs.readdirSync] show below a directory: a
    regular file, a directory with its entries in listing order, a directory
    whose listing fails, an entry whose [statSync] fails, or something that
    is neither a file nor a directory. *)
Inductive FsNode :=
| FsFile
| FsDirectory (entries : list (jsstring * FsNode))
| FsUnreadable
| FsBroken
| FsOther.

(** The host environment of the parser: the [node:fs] and [node:path]
    functions it calls.  [readTree dir] is the tree that listing [dir]
    recursively would show. *)
Record Host := {
  existsSync : jsstring -> bool;
  readTree : jsstring -> FsNode;
  path_join : list jsstring -> jsstring;
  path_resolve : list jsstring -> jsstring;
  path_relative : jsstring -> jsstring -> jsstring;
  path_dirname : jsstring -> jsstring;
  path_basename : jsstring -> jsstring -> jsstring;
  path_extname : jsstring -> jsstring;
}.

(** The fields of a [WikilinkParser] instance other than the two shared
    tables. *)
Record WikilinkParser := {
  opts : Options;
  inputDir : jsstring;
}.

(** ** Shared state

    The link cache and the dead-link set are objects handed to the
    constructor and shared with the caller.  Records live in an object store
    and are named by their address, so that "the same instance" is equality
    of addresses; the cache maps raw tokens to addresses. *)

Abbreviation loc := nat.

Record State := {
  linkCache : gmap jsstring loc;
  objects : list WikilinkMeta;
  deadLinks : gset jsstring;
}.

Record Error := { message : jsstring }.

Inductive Completion (A : Type) :=
| Return (a : A)
| Throw (e : Error).

Arguments Return {A} a.
Arguments Throw {A} e.

(** Computations that read and write the shared state and may throw. *)
Definition M (A : Type) : Type := State -> Completion A * State.

Definition ret {A} (a : A) : M A := fun s => (Return a, s).

Definition bind {A B} (c : M A) (k : A -> M B) : M B :=
  fun s =>
    match c s with
    | (Return a, s') => k a s'
    | (Throw e, s') => (Throw e, s')
    end.

Notation "'let*' x ':=' c 'in' k" := (bind c (fun x => k))
  (at level 10, x name, c at level 100, k at level 200).

(** Lifting of a step that can only throw. *)
Definition lift {A} (c : Completion A) : M A := fun s => (c, s).

(** [this.deadLinks.add(link)] *)
Definition deadLinks_add (l : jsstring) : M unit :=
  fun s => (Return tt,
            {| linkCache := linkCache s; objects := objects s;
               deadLinks := {[ l ]} ∪ deadLinks s |}).

(** [this.linkCache.set(link, meta)]: the record built by this call becomes
    reachable from the cache; its address is returned. *)
Definition linkCache_set (l : jsstring) (m : WikilinkMeta) : M loc :=
  fun s => (Return (length (objects s)),
            {| linkCache := <[ l := length (objects s) ]> (linkCache s);
               objects := objects s ++ [m];
               deadLinks := deadLinks s |}).

(** ** The parser *)

(** [/.(md|markdown)\s?$/i] tried at the first unit of [s]: any unit but a
    line terminator, then [md] or [markdown] in either case, then at most
    one white-space unit, then the end of the input. *)
Definition ext_tail (w r : jsstring) : bool :=
  match strip_prefix_ci w r with
  | Some [] => true
  | Some [c] => is_space c
  | _ => false
  end.

Definition md_regex_here (s : jsstring) : bool :=
  match s with
  | [] => false
  | c :: r =>
      negb (is_line_terminator c)
      && (ext_tail (lit "md") r || ext_tail (lit "markdown") r)
  end.

(** [s.replace(/.(md|markdown)\s?$/i, "")]: the left-most match, which runs
    to the end of the input, is removed. *)
Fixpoint strip_md (s : jsstring) : jsstring :=
  if md_regex_here s then []
  else match s with
       | [] => []
       | c :: r => c :: strip_md r
       end.

Definition imageExtensions : list jsstring :=
  [lit ".jpg"; lit ".jpeg"; lit ".png"; lit ".gif"; lit ".svg"; lit ".webp"].

(** [isImageFile(filename)] *)
Definition isImageFile (filename : jsstring) : bool :=
  existsb (fun ext => endsWith ext (toLowerCase filename)) imageExtensions.

(** The text between the brackets, split on ["|"], each part trimmed. *)
Definition linkParts (l : jsstring) : list jsstring :=
  let isEmbed := startsWith (lit "!") l in
  map trim (split (ch "|") (slice_to_end_minus (if isEmbed then 3 else 2) 2 l))%nat.

(** [parts[0]]; [split] never returns the empty array. *)
Definition first_part (parts : list jsstring) : jsstring := hd [] parts.

(** The record literal of lines 156-168. *)
Definition initialMeta (l : jsstring) : WikilinkMeta :=
  let isEmbed := startsWith (lit "!") l in
  let parts := linkParts l in
  {| title := match parts with [_; t] => Some t | _ => None end;
     name := strip_md (first_part parts);
     anchor := None;
     link := l;
     isEmbed := isEmbed;
     isPath := false;
     exists_ := false;
     resolvingFnName := if isEmbed then lit "default-embed" else lit "default";
     isImage := false;
     href := undefined;
     path := None;
     page := None |}.

(** Anchor link identification, lines 177-186. *)
Definition anchorStep (parts : list jsstring) (meta : WikilinkMeta) : WikilinkMeta :=
  if includes (ch "#") (name meta) then
    let nameParts := map trim (split (ch "#") (first_part parts)) in
    if negb (bool_decide (at_last (first_part nameParts) = Some (ch "/"))) then
      set_anchor (nameParts !! 1%nat) (set_name (first_part nameParts) meta)
    else
      set_name (replace_first (lit "/#") (lit "#") (name meta)) meta
  else meta.

Definition MissingContextError : Error :=
  {| message := lit "Unable to do relative path lookup of wikilink." |}.

(** Path link identification, lines 191-206. *)
Definition pathStep (filePathStem : option jsstring) (meta0 : WikilinkMeta)
  : Completion WikilinkMeta :=
  let meta :=
    set_isPath (startsWith (lit "/") (name meta0)
                || startsWith (lit "../") (name meta0)
                || startsWith (lit "./") (name meta0)) meta0 in
  if isPath meta && startsWith (lit ".") (name meta) then
    match filePathStem with
    | Some (c :: stem) =>
        let cwd := split (ch "/") (c :: stem) in
        let relative := split (ch "/") (name meta) in
        let stepsBack :=
          length (filter (fun file => file = lit "..") relative) in
        Return
          (set_name
             (join (lit "/")
                (slice_to_end_minus 0 (stepsBack + 1) cwd
                 ++ filter (fun file => file ≠ lit ".." ∧ file ≠ lit ".") relative))
             meta)
    | _ => Throw MissingContextError
    end
  else Return meta.

(** The error of line 219. *)
Definition UnresolvedResolverError
  (prefix l : jsstring) (filePathStem : option jsstring) : Error :=
  {| message :=
       lit "Unable to find resolving fn [" ++ prefix
       ++ lit "] for wikilink " ++ l
       ++ lit " on page [" ++ interpolate filePathStem ++ lit "]" |}.

(** [!this.opts.resolvingFns || this.opts.resolvingFns.has(p) === false] *)
Definition unregistered (o : Options) (p : jsstring) : bool :=
  match resolvingFns o with
  | None => true
  | Some fns => negb (bool_decide (p ∈ fns))
  end.

(** Custom resolving function, lines 214-227. *)
Definition resolverStep (this : WikilinkParser) (pageDirectory : PageDirectoryService)
  (l : jsstring) (filePathStem : option jsstring) (meta : WikilinkMeta)
  : Completion WikilinkMeta :=
  if includes (ch ":") (name meta) then
    let parts := map trim (split (ch ":") (name meta)) in
    if negb (bool_decide (at_last (first_part parts) = Some (ch "/"))) then
      if unregistered (opts this) (first_part parts) then
        if found (findByLink pageDirectory meta) then Return meta
        else Throw (UnresolvedResolverError (first_part parts) l filePathStem)
      else
        Return (set_name (default [] (parts !! 1%nat))
                  (set_resolvingFnName (first_part parts) meta))
    else
      Return (set_name (replace_first (lit "/:") (lit ":") (name meta)) meta)
  else Return meta.

(** [s.replace(/\\/g, '/')] *)
Definition slashes (s : jsstring) : jsstring :=
  map (fun c => if c =? 92 then ch "/" else c) s.

(** The local function [findFileRecursively(dir, filename)] of
    [findImageFile], run on the tree found at [dir].  The [try] block spans
    the whole loop over a directory: a failing [statSync] ends the search of
    that directory, a failing [readdirSync] yields [null] for it. *)
Fixpoint findFileRecursively (fs : Host) (node : FsNode)
  (dir filename : jsstring) : option jsstring :=
  match node with
  | FsDirectory entries =>
      (fix loop (es : list (jsstring * FsNode)) : option jsstring :=
         match es with
         | [] => None
         | (file, n) :: es' =>
             let fullPath := path_join fs [dir; file] in
             match n with
             | FsBroken => None
             | FsFile =>
                 if bool_decide (file = filename) then Some fullPath
                 else loop es'
             | FsDirectory _ | FsUnreadable =>
                 match findFileRecursively fs n fullPath filename with
                 | Some (c :: p) => Some (c :: p)
                 | _ => loop es'
                 end
             | FsOther => loop es'
             end
         end) entries
  | _ => None
  end.

(** [findImageFile(imagePath, baseDir, filePathStem)], lines 29-113. *)
Definition findImageFile (fs : Host) (imagePath baseDir : jsstring)
  (filePathStem : option jsstring) : option ImageResult :=
  if startsWith (lit "/") imagePath then
    let full := path_join fs [baseDir; drop 1 imagePath] in
    Some {| ir_exists := existsSync fs full; ir_href := imagePath;
            fullPath := full |}
  else if startsWith (lit "./") imagePath || startsWith (lit "../") imagePath then
    match filePathStem with
    | Some (c :: stem) =>
        let currentDir := path_dirname fs (c :: stem) in
        let full :=
          path_resolve fs [path_join fs [baseDir; currentDir]; imagePath] in
        let relativePath := path_relative fs baseDir full in
        Some {| ir_exists := existsSync fs full;
                ir_href := lit "/" ++ slashes relativePath;
                fullPath := full |}
    | _ => None
    end
  else
    let searchPaths :=
      match filePathStem with
      | Some (c :: stem) =>
          [path_join fs [baseDir; path_dirname fs (c :: stem); imagePath]]
      | _ => []
      end ++ [path_join fs [baseDir; imagePath]] in
    match List.find (existsSync fs) searchPaths with
    | Some searchPath =>
        Some {| ir_exists := true;
                ir_href := lit "/" ++ slashes (path_relative fs baseDir searchPath);
                fullPath := searchPath |}
    | None =>
        match findFileRecursively fs (readTree fs baseDir) baseDir imagePath with
        | Some (c :: foundPath) =>
            Some {| ir_exists := true;
                    ir_href :=
                      lit "/" ++ slashes (path_relative fs baseDir (c :: foundPath));
                    fullPath := c :: foundPath |}
        | _ => None
        end
    end.

Section Engine.

Variable fs : Host.

(** Image embeds, lines 230-252. *)
Definition imageStep (this : WikilinkParser) (l : jsstring)
  (filePathStem : option jsstring) (meta0 : WikilinkMeta) : M WikilinkMeta :=
  if isEmbed meta0 && isImageFile (name meta0) then
    let meta := set_resolvingFnName (lit "image-embed") (set_isImage true meta0) in
    let imageResult := findImageFile fs (name meta) (inputDir this) filePathStem in
    match imageResult with
    | Some {| ir_exists := true; ir_href := h; fullPath := p |} =>
        let meta := set_path (Some p) (set_href (jstr h) (set_exists true meta)) in
        if negb (truthy (title meta)) then
          ret (set_title
                 (Some (path_basename fs (name meta) (path_extname fs (name meta))))
                 meta)
        else ret meta
    | _ =>
        let* _ := deadLinks_add l in
        ret (set_resolvingFnName (lit "404-embed")
               (set_href (stubUrl (opts this)) meta))
    end
  else ret meta0.

(** [['default', 'default-embed'].includes(n)] *)
Definition is_default_fn (n : jsstring) : bool :=
  bool_decide (n = lit "default") || bool_decide (n = lit "default-embed").

(** Page lookup, lines 256-276. *)
Definition lookupStep (this : WikilinkParser) (pageDirectory : PageDirectoryService)
  (l : jsstring) (meta : WikilinkMeta) : M WikilinkMeta :=
  if negb (isImage meta) then
    let r := findByLink pageDirectory meta in
    match lr_page r with
    | Some pg =>
        let meta1 :=
          if foundByAlias r then set_title (Some (name meta)) meta
          else if bool_decide (title meta = None) && truthy (data_title pg)
               then set_title (data_title pg) meta
               else meta in
        ret (set_page (Some pg)
               (set_exists true
                  (set_path (Some (inputPath pg))
                     (set_href (url pg) meta1))))
    | None =>
        if is_default_fn (resolvingFnName meta) then
          let* _ := deadLinks_add l in
          let meta1 := set_href (stubUrl (opts this)) meta in
          if isEmbed meta then ret (set_resolvingFnName (lit "404-embed") meta1)
          else ret meta1
        else ret meta
    end
  else ret meta.

(** The steps of [parseSingle] between the cache check and the cache write
    that touch only the record under construction. *)
Definition localSteps (this : WikilinkParser) (pageDirectory : PageDirectoryService)
  (l : jsstring) (filePathStem : option jsstring) : Completion WikilinkMeta :=
  match pathStep filePathStem (anchorStep (linkParts l) (initialMeta l)) with
  | Return meta => resolverStep this pageDirectory l filePathStem meta
  | Throw e => Throw e
  end.

(** [parseSingle(link, pageDirectory, filePathStem)]; the result is the
    address of the returned record. *)
Definition parseSingle (this : WikilinkParser) (l : jsstring)
  (pageDirectory : PageDirectoryService) (filePathStem : option jsstring) : M loc :=
  fun s =>
    match linkCache s !! l with
    | Some r => (Return r, s)
    | None =>
        (let* meta := lift (localSteps this pageDirectory l filePathStem) in
         let* meta := imageStep this l filePathStem meta in
         let* meta := lookupStep this pageDirectory l meta in
         linkCache_set l meta) s
    end.

(** [links.map(link => this.parseSingle(link, pageDirectory, filePathStem))] *)
Fixpoint parseMultiple (this : WikilinkParser) (links : list jsstring)
  (pageDirectory : PageDirectoryService) (filePathStem : option jsstring)
  : M (list loc) :=
  match links with
  | [] => ret []
  | l :: ls =>
      let* r := parseSingle this l pageDirectory filePathStem in
      let* rs := parseMultiple this ls pageDirectory filePathStem in
      ret (r :: rs)
  end.

End Engine.

(** ** The link grammar

    [wikiLinkRegExp = /(?<!!)(!?)\[\[([^|\n]+?)(\|([^\n]+?))?]]/g], run as a
    backtracking matcher: each function returns the number of units the rest
    of the pattern consumes from its argument, trying the alternatives in
    the order the regular expression does. *)

Module Grammar.

(** [x+?] followed by [k]: take one unit satisfying [ok], try the rest of the
    pattern, and only on failure take a further unit. *)
Fixpoint lazy_plus (ok : N -> bool) (k : jsstring -> option nat) (s : jsstring)
  : option nat :=
  match s with
  | [] => None
  | c :: r =>
      if ok c then
        match k r with
        | Some n => Some (S n)
        | None => S <$> lazy_plus ok k r
        end
      else None
  end.

(** The closing ["]]"]. *)
Definition closing (s : jsstring) : option nat :=
  if startsWith (lit "]]") s then Some 2%nat else None.

(** [[^\n]] *)
Definition title_unit (c : N) : bool := negb (c =? 10).

(** [[^|\n]] *)
Definition name_unit (c : N) : bool := negb (c =? ch "|") && negb (c =? 10).

(** [(\|([^\n]+?))?]]]: the optional group is tried first (greedy [?]). *)
Definition title_group (s : jsstring) : option nat :=
  let with_group :=
    match s with
    | c :: r => if c =? ch "|" then S <$> lazy_plus title_unit closing r else None
    | [] => None
    end in
  match with_group with
  | Some n => Some n
  | None => closing s
  end.

(** [\[\[([^|\n]+?)...] *)
Definition brackets (s : jsstring) : option nat :=
  if startsWith (lit "[[") s
  then (fun n => 2 + n)%nat <$> lazy_plus name_unit title_group (drop 2 s)
  else None.

(** The whole pattern tried at one position; [prev] is the unit before it. *)
Definition match_here (prev : option N) (s : jsstring) : option nat :=
  if bool_decide (prev = Some (ch "!")) then None
  else
    let with_bang :=
      match s with
      | c :: r => if c =? ch "!" then S <$> brackets r else None
      | [] => None
      end in
    match with_bang with
    | Some n => Some n
    | None => brackets s
    end.

(** [document.match(wikiLinkRegExp) || []]: left to right, each search
    resuming where the previous match ended.  [skip] counts the units of the
    current match still to pass over. *)
Fixpoint match_all_from (prev : option N) (skip : nat) (s : jsstring)
  : list jsstring :=
  match s with
  | [] => []
  | c :: r =>
      match skip with
      | S k => match_all_from (Some c) k r
      | O =>
          match match_here prev s with
          | Some n => take n s :: match_all_from (Some c) (n - 1) r
          | None => match_all_from (Some c) 0 r
          end
      end
  end.

Definition match_all (document : jsstring) : list jsstring :=
  match_all_from None 0 document.

End Grammar.

(** [find(document, pageDirectory, filePathStem)] *)
Definition find (fs : Host) (this : WikilinkParser) (document : jsstring)
  (pageDirectory : PageDirectoryService) (filePathStem : option jsstring)
  : M (list loc) :=
  parseMultiple fs this (Grammar.match_all document) pageDirectory filePathStem.

(** ** Concrete environments used in the examples *)

Definition emptyState : State :=
  {| linkCache := ∅; objects := []; deadLinks := ∅ |}.

(** A page index without documents. *)
Definition emptyDirectory : PageDirectoryService :=
  {| findByLink := fun _ => {| lr_page := None; found := false; foundByAlias := false |} |}.

(** A content tree without files. *)
Definition noFiles : Host :=
  {| existsSync := fun _ => false;
     readTree := fun _ => FsDirectory [];
     path_join := join (lit "/");
     path_resolve := fun l => default [] (last l);
     path_relative := fun _ to => to;
     path_dirname := fun p => p;
     path_basename := fun p _ => p;
     path_extname := fun _ => [] |}.

(** The options of the parser tests: the three default resolvers are
    registered and the stub URL is ["/stubs/"]. *)
Definition testParser : WikilinkParser :=
  {| opts :=
       {| resolvingFns :=
            Some ({[ lit "default" ]} ∪ {[ lit "default-embed" ]}
                  ∪ {[ lit "default-image" ]});
          stubUrl := jstr (lit "/stubs/") |};
     inputDir := lit "/home/user/website" |}.

(** ** Sequences of calls on one engine instance *)

Record Call := {
  call_link : jsstring;
  call_directory : PageDirectoryService;
  call_stem : option jsstring;
}.

(** The state after a sequence of [parseSingle] calls, whatever each call
    returned or threw. *)
Fixpoint run_calls (fs : Host) (this : WikilinkParser) (cs : list Call)
  (s : State) : State :=
  match cs with
  | [] => s
  | c :: cs' =>
      run_calls fs this cs'
        (parseSingle fs this (call_link c) (call_directory c) (call_stem c) s).2
  end.

(** ** Vocabulary of the specification

    The text before and after the first occurrence of a unit, used to state
    what the steps compute independently of [split]. *)

Fixpoint before_first (c : N) (s : jsstring) : jsstring :=
  match s with
  | [] => []
  | x :: r => if x =? c then [] else x :: before_first c r
  end.

Fixpoint after_first (c : N) (s : jsstring) : jsstring :=
  match s with
  | [] => []
  | x :: r => if x =? c then r else after_first c r
  end.

(** The tokens of the link grammar, stated on the text: an optional ["!"],
    ["[["], a non-empty name segment without ["|"] and newline, optionally
    ["|"] and a non-empty title segment without newline, and ["]]"]. *)

Definition name_segment (x : jsstring) : Prop :=
  x ≠ [] ∧ Forall (λ c, Grammar.name_unit c = true) x.

Definition title_segment (y : jsstring) : Prop :=
  y ≠ [] ∧ Forall (λ c, Grammar.title_unit c = true) y.

Definition token_form (t : jsstring) : Prop :=
  ∃ bang x tl,
    t = bang ++ lit "[[" ++ x ++ tl ++ lit "]]"
    ∧ (bang = [] ∨ bang = lit "!")
    ∧ name_segment x
    ∧ (tl = [] ∨ ∃ y, tl = ch "|" :: y ∧ title_segment y).

(** The unit before a position: the last unit of the text before it, or
    the unit before that text when it is empty. *)
Definition unit_before (prev : option N) (pre : jsstring) : option N :=
  match last pre with
  | Some c => Some c
  | None => prev
  end.

(** The form as the specification words it: [X] without ["|"] and newline,
    [Y] without newline, with no requirement that they be non-empty. *)
Definition claimed_form (t : jsstring) : Prop :=
  ∃ bang x tl,
    t = bang ++ lit "[[" ++ x ++ tl ++ lit "]]"
    ∧ (bang = [] ∨ bang = lit "!")
    ∧ Forall (λ c, Grammar.name_unit c = true) x
    ∧ (tl = [] ∨ ∃ y, tl = ch "|" :: y
                      ∧ Forall (λ c, Grammar.title_unit c = true) y).

(** ** The render functions of [resolvers.js]

    [defaultResolvingFn] and [imageEmbedFn] are [async] functions without an
    [await]: the value below is what their promise settles to.
    [encodeHTML] is the function of the [entities] package. *)

(** A value interpolated in a template literal. *)
Definition to_js_string (v : jsval) : jsstring :=
  match v with
  | undefined => lit "undefined"
  | jfalse => lit "false"
  | jstr s => s
  end.

(** The double quote. *)
Definition dquote : jsstring := [34].

(** [defaultResolvingFn(link, currentPage, interlinker)], lines 12-21. *)
Definition defaultResolvingFn (encodeHTML : jsstring -> jsstring)
  (l : WikilinkMeta) : jsstring :=
  let text := encodeHTML (default (name l) (title l)) in
  let href0 :=
    match anchor l with
    | Some (c :: a) => jstr (to_js_string (href l) ++ lit "#" ++ c :: a)
    | _ => href l
    end in
  match href0 with
  | jfalse => link l
  | _ =>
      lit "<a href=" ++ dquote ++ to_js_string href0 ++ dquote ++ lit ">"
      ++ text ++ lit "</a>"
  end.

(** How the promise of [imageEmbedFn] settles: with markup, with
    [undefined], or rejected by the [TypeError] of calling [startsWith] on
    an [href] that is not a string. *)
Inductive Rendering :=
| Html (markup : jsstring)
| Nothing
| TypeError.

(** [/\.[^/.]+$/] tried at the first unit of [s]. *)
Definition ext_regex_here (s : jsstring) : bool :=
  match s with
  | c :: x :: r =>
      (c =? ch ".")
      && forallb (fun u => negb (u =? ch "/") && negb (u =? ch ".")) (x :: r)
  | _ => false
  end.

(** [s.replace(/\.[^/.]+$/, '')] *)
Fixpoint strip_ext (s : jsstring) : jsstring :=
  if ext_regex_here s then []
  else match s with
       | [] => []
       | c :: r => c :: strip_ext r
       end.

(** [\d] *)
Definition is_digit (c : N) : bool := (48 <=? c) && (c <=? 57).

Fixpoint leading_digits (s : jsstring) : jsstring :=
  match s with
  | c :: r => if is_digit c then c :: leading_digits r else []
  | [] => []
  end.

(** [title.match(/^(\d+)(?:x\d+)?$/)], reduced to its first group; [None]
    when there is no match. *)
Definition sizeMatch (t : jsstring) : option jsstring :=
  let d := leading_digits t in
  match d with
  | [] => None
  | _ :: _ =>
      match drop (length d) t with
      | [] => Some d
      | c :: x :: r =>
          if (c =? ch "x") && forallb is_digit (x :: r) then Some d else None
      | _ => None
      end
  end.

(** [imageEmbedFn(link, currentPage, interlinker)], lines 83-120. *)
Definition imageEmbedFn (encodeHTML : jsstring -> jsstring)
  (l : WikilinkMeta) : Rendering :=
  if negb (exists_ l) || negb (isImage l) then Nothing
  else
    match href l with
    | jstr h =>
        let src := if negb (startsWith (lit "/") h) then lit "/" ++ h else h in
        let imageName := default [] (last (split (ch "/") (name l))) in
        let imageTitle := strip_ext imageName in
        let sized :=
          match title l with
          | Some (c :: t) => sizeMatch (c :: t)
          | _ => None
          end in
        let alt :=
          match title l, sized with
          | Some (c :: t), None => encodeHTML (c :: t)
          | _, _ => encodeHTML imageTitle
          end in
        Html (lit "<img src=" ++ dquote ++ src ++ dquote
              ++ lit " alt=" ++ dquote ++ alt ++ dquote
              ++ match sized with
                 | Some (c :: w) =>
                     lit " width=" ++ dquote ++ (c :: w) ++ lit "px" ++ dquote
                 | _ => []
                 end
              ++ lit " />")
    | _ => TypeError
    end.

(** ** Vocabulary of the further properties *)

(** Every cached address holds a record, and that record is the one of its
    key. *)
Definition cache_consistent (s : State) : Prop :=
  ∀ k r, linkCache s !! k = Some r →
         ∃ m, objects s !! r = Some m ∧ link m = k.

(** The names [resolvingFnName] takes without a custom resolver. *)
Definition builtin_fn (n : jsstring) : Prop :=
  n = lit "default" ∨ n = lit "default-embed"
  ∨ n = lit "image-embed" ∨ n = lit "404-embed".

(** [n] is a key of [opts.resolvingFns]. *)
Definition registered (o : Options) (n : jsstring) : Prop :=
  ∃ fns, resolvingFns o = Some fns ∧ n ∈ fns.

(** A document cut into the text between its tokens and the tokens. *)
Fixpoint weave (gaps tokens : list jsstring) : jsstring :=
  match gaps, tokens with
  | g :: gaps', t :: tokens' => g ++ t ++ weave gaps' tokens'
  | g :: _, [] => g
  | [], _ => []
  end.

(** A regular file named [filename] somewhere in the tree. *)
Inductive contains_file (filename : jsstring) : FsNode -> Prop :=
| contains_here entries :
    (filename, FsFile) ∈ entries →
    contains_file filename (FsDirectory entries)
| contains_below entries d sub :
    (d, sub) ∈ entries →
    contains_file filename sub →
    contains_file filename (FsDirectory entries).

(** No entry of the tree makes [statSync] fail. *)
Fixpoint no_broken (node : FsNode) : bool :=
  match node with
  | FsDirectory entries => forallb (fun e => no_broken e.2) entries
  | FsBroken => false
  | _ => true
  end.

(** The condition under which the resolver step throws on record [m4]. *)
Definition unresolved_prefix (this : WikilinkParser)
  (pageDirectory : PageDirectoryService) (m4 : WikilinkMeta) : bool :=
  includes (ch ":") (name m4)
  && negb (bool_decide
             (last (trim (before_first (ch ":") (name m4))) = Some (ch "/")))
  && unregistered (opts this) (trim (before_first (ch ":") (name m4)))
  && negb (found (findByLink pageDirectory m4)).

(** ** Generic facts about the steps *)

Arguments isImageFile : simpl never.
Arguments is_default_fn : simpl never.
Arguments lit : simpl never.
Arguments ch : simpl never.


Ltac case_step :=
  match goal with
  | |- context [match ?x with _ => _ end] => destruct x eqn:?
  | |- context [if ?b then _ else _] => destruct b eqn:?
  end.

(** The image step always completes normally; it leaves the cache and the
    object store alone and can only add the token to the dead links. *)
Lemma imageStep_returns fs this l stem m0 s :
  ∃ m1 s1,
    imageStep fs this l stem m0 s = (Return m1, s1)
    ∧ linkCache s1 = linkCache s
    ∧ objects s1 = objects s
    ∧ (deadLinks s1 = deadLinks s ∨ deadLinks s1 = {[ l ]} ∪ deadLinks s)
    ∧ name m1 = name m0
    ∧ anchor m1 = anchor m0
    ∧ isEmbed m1 = isEmbed m0
    ∧ isImage m1 = (isEmbed m0 && isImageFile (name m0) || isImage m0)
    ∧ isPath m1 = isPath m0.
Proof.
  unfold imageStep.
  destruct (isEmbed m0 && isImageFile (name m0)) eqn:E.
  - destruct (findImageFile fs _ _ stem) as [[[] h p]|]; cbn.
    + case_step; eexists _, _; cbn; repeat split; auto.
    + eexists _, _; unfold bind, deadLinks_add, ret; cbn; repeat split; auto.
    + eexists _, _; unfold bind, deadLinks_add, ret; cbn; repeat split; auto.
  - exists m0, s. unfold ret. repeat split; auto.
Qed.

(** The lookup step always completes normally as well. *)
Lemma lookupStep_returns this pd l m1 s1 :
  ∃ m2 s2,
    lookupStep this pd l m1 s1 = (Return m2, s2)
    ∧ linkCache s2 = linkCache s1
    ∧ objects s2 = objects s1
    ∧ (deadLinks s2 = deadLinks s1 ∨ deadLinks s2 = {[ l ]} ∪ deadLinks s1)
    ∧ name m2 = name m1
    ∧ anchor m2 = anchor m1
    ∧ isEmbed m2 = isEmbed m1
    ∧ isImage m2 = isImage m1
    ∧ (isEmbed m1 = false → resolvingFnName m2 = resolvingFnName m1)
    ∧ isPath m2 = isPath m1.
Proof.
  unfold lookupStep.
  destruct (negb (isImage m1)).
  - destruct (lr_page (findByLink pd m1)) as [pg|].
    + eexists _, _; unfold ret; repeat split; auto; repeat case_step; cbn; auto.
    + destruct (is_default_fn (resolvingFnName m1)).
      * unfold bind, deadLinks_add. cbn.
        destruct (isEmbed m1) eqn:E; eexists _, _; unfold ret; cbn;
          repeat split; auto; discriminate.
      * exists m1, s1. unfold ret. repeat split; auto.
  - exists m1, s1. unfold ret. repeat split; auto.
Qed.

(** On a cache miss [parseSingle] runs the steps in order. *)
Lemma parseSingle_miss fs this l pd stem s :
  linkCache s !! l = None →
  parseSingle fs this l pd stem s =
    match localSteps this pd l stem with
    | Throw e => (Throw e, s)
    | Return m0 =>
        match imageStep fs this l stem m0 s with
        | (Return m1, s1) =>
            match lookupStep this pd l m1 s1 with
            | (Return m2, s2) => linkCache_set l m2 s2
            | (Throw e, s2) => (Throw e, s2)
            end
        | (Throw e, s1) => (Throw e, s1)
        end
    end.
Proof.
  intros H. unfold parseSingle. rewrite H. unfold bind, lift.
  destruct (localSteps this pd l stem); reflexivity.
Qed.

Lemma parseSingle_hit fs this l pd stem s r :
  linkCache s !! l = Some r →
  parseSingle fs this l pd stem s = (Return r, s).
Proof. intros H. unfold parseSingle. now rewrite H. Qed.

(** A call that throws has thrown in one of the local steps and has left
    the state as it was. *)
Lemma parseSingle_throw_inv fs this l pd stem s e s' :
  parseSingle fs this l pd stem s = (Throw e, s') →
  s' = s ∧ linkCache s !! l = None ∧ localSteps this pd l stem = Throw e.
Proof.
  intros H. destruct (linkCache s !! l) as [r|] eqn:Hc.
  - rewrite (parseSingle_hit _ _ _ _ _ _ _ Hc) in H. discriminate.
  - rewrite (parseSingle_miss _ _ _ _ _ _ Hc) in H.
    destruct (localSteps this pd l stem) as [m0|e0].
    + destruct (imageStep_returns fs this l stem m0 s) as (m1 & s1 & E1 & _).
      rewrite E1 in H.
      destruct (lookupStep_returns this pd l m1 s1) as (m2 & s2 & E2 & _).
      rewrite E2 in H. discriminate.
    + now inversion H.
Qed.

(** A call that returns after a cache miss has stored the record it built
    at a fresh address. *)
Lemma parseSingle_return_miss fs this l pd stem s r s' :
  linkCache s !! l = None →
  parseSingle fs this l pd stem s = (Return r, s') →
  ∃ m0 m1 s1 m2 s2,
    localSteps this pd l stem = Return m0
    ∧ imageStep fs this l stem m0 s = (Return m1, s1)
    ∧ lookupStep this pd l m1 s1 = (Return m2, s2)
    ∧ r = length (objects s)
    ∧ linkCache s' = <[ l := r ]> (linkCache s)
    ∧ objects s' = objects s ++ [m2]
    ∧ deadLinks s' = deadLinks s2.
Proof.
  intros Hc H. rewrite (parseSingle_miss _ _ _ _ _ _ Hc) in H.
  destruct (localSteps this pd l stem) as [m0|e0]; [|discriminate].
  destruct (imageStep_returns fs this l stem m0 s) as (m1 & s1 & E1 & _ & O1 & _).
  rewrite E1 in H.
  destruct (lookupStep_returns this pd l m1 s1) as (m2 & s2 & E2 & C2 & O2 & _).
  rewrite E2 in H. unfold linkCache_set in H. inversion H; subst; clear H.
  exists m0, m1, s1, m2, s2. cbn. rewrite O2, O1.
  repeat split; auto.
  rewrite C2. destruct (imageStep_returns fs this l stem m0 s) as (m1' & s1' & E1' & C1 & _).
  rewrite E1 in E1'. inversion E1'; subst. now rewrite C1.
Qed.

(** Existing cache entries and stored records survive every call. *)
Lemma parseSingle_preserves fs this l pd stem s :
  let s' := (parseSingle fs this l pd stem s).2 in
  (∀ k v, linkCache s !! k = Some v → linkCache s' !! k = Some v)
  ∧ (∀ i m, objects s !! i = Some m → objects s' !! i = Some m)
  ∧ deadLinks s ⊆ deadLinks s'.
Proof.
  cbn zeta.
  destruct (parseSingle fs this l pd stem s) as [[r|e] s'] eqn:H; cbn.
  - destruct (linkCache s !! l) as [r0|] eqn:Hc.
    + rewrite (parseSingle_hit _ _ _ _ _ _ _ Hc) in H. inversion H; subst. auto.
    + destruct (parseSingle_return_miss _ _ _ _ _ _ _ _ Hc H)
        as (m0 & m1 & s1 & m2 & s2 & _ & E1 & E2 & -> & C & O & D).
      split; [|split].
      * intros k v Hk. rewrite C. rewrite lookup_insert_ne; auto. congruence.
      * intros i m Hi. rewrite O. now apply lookup_app_l_Some.
      * rewrite D.
        destruct (imageStep_returns fs this l stem m0 s)
          as (m1' & s1' & E1' & _ & _ & D1 & _).
        rewrite E1 in E1'. injection E1' as <- <-.
        destruct (lookupStep_returns this pd l m1 s1)
          as (m2' & s2' & E2' & _ & _ & D2 & _).
        rewrite E2 in E2'. injection E2' as <- <-.
        destruct D1 as [D1 | D1], D2 as [D2 | D2]; rewrite D2, D1; clear; set_solver.
  - apply parseSingle_throw_inv in H as [-> _]. auto.
Qed.

Lemma run_calls_preserves fs this cs : ∀ s,
  let s' := run_calls fs this cs s in
  (∀ k v, linkCache s !! k = Some v → linkCache s' !! k = Some v)
  ∧ (∀ i m, objects s !! i = Some m → objects s' !! i = Some m)
  ∧ deadLinks s ⊆ deadLinks s'.
Proof.
  induction cs as [|c cs IH]; intros s; cbn.
  - auto.
  - destruct (parseSingle_preserves fs this (call_link c) (call_directory c)
                (call_stem c) s) as (A & B & C).
    destruct (IH ((parseSingle fs this (call_link c) (call_directory c)
                     (call_stem c) s).2)) as (A' & B' & C').
    split; [|split]; eauto. clear - C C'. set_solver.
Qed.

(** What the local steps can throw. *)
Lemma localSteps_throw_inv this pd l stem e :
  localSteps this pd l stem = Throw e →
  e = MissingContextError
  ∨ ∃ prefix, e = UnresolvedResolverError prefix l stem.
Proof.
  unfold localSteps. intros H.
  destruct (pathStep stem _) as [m|e0] eqn:Hp.
  - right. unfold resolverStep in H.
    repeat (match type of H with
            | context [if ?b then _ else _] => destruct b
            end; try discriminate).
    inversion H; subst; eauto.
  - left. inversion H; subst. unfold pathStep in Hp.
    repeat (match type of Hp with
            | context [match ?x with _ => _ end] => destruct x
            end; try discriminate);
      now inversion Hp.
Qed.

(** *** C10 *)

(** C10: whenever [parseSingle] throws, the link cache and the dead-link
    set (indeed the whole shared state) are exactly as before the call, and
    the error is one of the two the local steps raise. *)
Theorem C10_throw_leaves_side_tables_unchanged
  fs this l pd stem s e s' :
  parseSingle fs this l pd stem s = (Throw e, s') →
  linkCache s' = linkCache s
  ∧ deadLinks s' = deadLinks s
  ∧ s' = s
  ∧ (e = MissingContextError
     ∨ ∃ prefix, e = UnresolvedResolverError prefix l stem).
Proof.
  intros H. apply parseSingle_throw_inv in H as (-> & _ & H).
  repeat split; auto. eapply localSteps_throw_inv; eauto.
Qed.

Lemma C10_witness :
  let s := {| linkCache := {[ lit "[[a]]" := 0%nat ]};
              objects := [initialMeta (lit "[[a]]")];
              deadLinks := {[ lit "[[b]]" ]} |} in
  let out := parseSingle noFiles testParser (lit "[[../c]]") emptyDirectory
               None s in
  linkCache out.2 = linkCache s ∧ deadLinks out.2 = deadLinks s ∧ out.2 = s
  ∧ (MissingContextError = MissingContextError
     ∨ ∃ prefix,
         MissingContextError
         = UnresolvedResolverError prefix (lit "[[../c]]") None).
Proof.
  intros s out.
  apply (C10_throw_leaves_side_tables_unchanged
           noFiles testParser (lit "[[../c]]") emptyDirectory None s
           MissingContextError out.2).
  vm_compute. reflexivity.
Defined.

(** *** C3 *)

(** C3: once a call has returned a record for token [t], every later call
    for [t] on the same engine, after any sequence of other calls, returns
    the same address without touching the state; the cache keeps mapping
    [t] to it and the record stored there is unchanged. *)
Theorem C3_cached_record_is_returned_and_stable
  fs this t pd stem s r s1 :
  parseSingle fs this t pd stem s = (Return r, s1) →
  ∀ calls pd' stem',
    let s2 := run_calls fs this calls s1 in
    parseSingle fs this t pd' stem' s2 = (Return r, s2)
    ∧ linkCache s2 !! t = Some r
    ∧ (∀ m, objects s1 !! r = Some m → objects s2 !! r = Some m)
    ∧ (linkCache s !! t = None → is_Some (objects s1 !! r)).
Proof.
  intros H calls pd' stem' s2.
  assert (Hc1 : linkCache s1 !! t = Some r).
  { destruct (linkCache s !! t) as [r0|] eqn:Hc.
    - rewrite (parseSingle_hit _ _ _ _ _ _ _ Hc) in H. now inversion H; subst.
    - destruct (parseSingle_return_miss _ _ _ _ _ _ _ _ Hc H)
        as (? & ? & ? & ? & ? & _ & _ & _ & -> & C & _).
      rewrite C. apply lookup_insert_eq. }
  destruct (run_calls_preserves fs this calls s1) as (A & B & _).
  fold s2 in A, B.
  repeat split.
  - apply parseSingle_hit. auto.
  - auto.
  - intros m. apply B.
  - intros Hc.
    destruct (parseSingle_return_miss _ _ _ _ _ _ _ _ Hc H)
      as (? & ? & ? & m2 & ? & _ & _ & _ & -> & _ & O & _).
    exists m2. rewrite O. apply list_lookup_middle. reflexivity.
Qed.

Lemma C3_witness :
  let t := lit "[[hello-world]]" in
  let s1 := (parseSingle noFiles testParser t emptyDirectory None emptyState).2 in
  let calls := [ {| call_link := lit "![[other.png]]";
                    call_directory := emptyDirectory;
                    call_stem := None |};
                 {| call_link := t;
                    call_directory := emptyDirectory;
                    call_stem := Some (lit "/blog/post") |} ] in
  let s2 := run_calls noFiles testParser calls s1 in
  parseSingle noFiles testParser t emptyDirectory (Some (lit "/x")) s2
  = (Return 0%nat, s2)
  ∧ linkCache s2 !! t = Some 0%nat
  ∧ objects s2 !! 0%nat = objects s1 !! 0%nat
  ∧ is_Some (objects s1 !! 0%nat).
Proof.
  intros t s1 calls s2.
  destruct (C3_cached_record_is_returned_and_stable
              noFiles testParser t emptyDirectory None emptyState 0%nat s1)
    with (calls := calls) (pd' := emptyDirectory) (stem' := Some (lit "/x"))
    as (E & C & O & F);
    [vm_compute; reflexivity|].
  split; [exact E|]. split; [exact C|].
  destruct (F eq_refl) as [m Hm]. split; [|exists m; exact Hm].
  rewrite Hm. apply O. exact Hm.
Defined.

(** What the local steps leave untouched in the record they return. *)
Lemma localSteps_fields this pd l stem m0 :
  localSteps this pd l stem = Return m0 →
  isEmbed m0 = startsWith (lit "!") l
  ∧ isImage m0 = false
  ∧ link m0 = l
  ∧ href m0 = undefined
  ∧ title m0 = title (initialMeta l)
  ∧ anchor m0 = anchor (anchorStep (linkParts l) (initialMeta l)).
Proof.
  unfold localSteps. intros H.
  destruct (pathStep stem _) as [m|e0] eqn:Hp; [|discriminate].
  assert (Hm : isEmbed m = startsWith (lit "!") l ∧ isImage m = false
               ∧ link m = l ∧ href m = undefined
               ∧ title m = title (initialMeta l)
               ∧ anchor m = anchor (anchorStep (linkParts l) (initialMeta l))).
  { unfold pathStep in Hp.
    set (a := anchorStep (linkParts l) (initialMeta l)) in *.
    assert (Hfix : isEmbed a = startsWith (lit "!") l ∧ isImage a = false
                   ∧ link a = l ∧ href a = undefined
                   ∧ title a = title (initialMeta l)).
    { unfold a, anchorStep. repeat case_step; cbn; auto. }
    destruct Hfix as (? & ? & ? & ? & ?).
    repeat (match type of Hp with
            | context [match ?x with _ => _ end] => destruct x
            end; try discriminate);
      injection Hp as <-; cbn; auto 10. }
  destruct Hm as (? & ? & ? & ? & ? & ?).
  unfold resolverStep in H.
  repeat (match type of H with
          | context [if ?b then _ else _] => destruct b
          end; try discriminate);
    injection H as <-; cbn; auto 10.
Qed.

(** *** C2 *)

(** C2: for a token that is not cached and passes the local steps with
    record [m0]: when it is not an image embed and the page lookup finds no
    page, then, if [resolvingFnName] is still one of the two defaults, the
    token is added to the dead links, [href] becomes the stub URL and
    [resolvingFnName] becomes ['404-embed'] for embeds only; if a custom
    resolver was selected, the lookup step changes neither the record nor
    the dead links.  For an image embed the lookup step is skipped: record
    and dead links are those the image step produced. *)
Theorem C2_dead_link_fallback_only_for_default_resolvers
  fs this l pd stem s m0 :
  linkCache s !! l = None →
  localSteps this pd l stem = Return m0 →
  ∃ m2 s2,
    parseSingle fs this l pd stem s = (Return (length (objects s)), s2)
    ∧ objects s2 !! length (objects s) = Some m2
    ∧ (isEmbed m0 && isImageFile (name m0) = false →
       lr_page (findByLink pd m0) = None →
       if is_default_fn (resolvingFnName m0)
       then deadLinks s2 = {[ l ]} ∪ deadLinks s
            ∧ href m2 = stubUrl (opts this)
            ∧ resolvingFnName m2
              = (if isEmbed m0 then lit "404-embed" else resolvingFnName m0)
       else deadLinks s2 = deadLinks s ∧ m2 = m0)
    ∧ (isEmbed m0 && isImageFile (name m0) = true →
       ∃ s1, imageStep fs this l stem m0 s = (Return m2, s1)
             ∧ deadLinks s2 = deadLinks s1).
Proof.
  intros Hc H0.
  rewrite (parseSingle_miss _ _ _ _ _ _ Hc), H0.
  destruct (localSteps_fields _ _ _ _ _ H0) as (_ & Hi & _).
  destruct (imageStep_returns fs this l stem m0 s)
    as (m1 & s1 & E1 & C1 & O1 & D1 & N1 & A1 & B1 & I1 & _).
  rewrite E1.
  destruct (lookupStep_returns this pd l m1 s1)
    as (m2 & s2 & E2 & C2 & O2 & _).
  rewrite E2. unfold linkCache_set. cbn.
  eexists m2, _. split; [rewrite O2, O1; reflexivity|].
  cbn. split; [apply list_lookup_middle; reflexivity|].
  split.
  - intros Hn Hp.
    unfold imageStep in E1. rewrite Hn in E1. unfold ret in E1.
    injection E1 as <- <-.
    unfold lookupStep in E2. rewrite Hi, Hp in E2. cbn in E2.
    destruct (is_default_fn (resolvingFnName m0)).
    + unfold bind, deadLinks_add, ret in E2. cbn in E2.
      destruct (isEmbed m0); injection E2 as <- <-; cbn; auto.
    + unfold ret in E2. injection E2 as <- <-. auto.
  - intros Hy. exists s1. split.
    + f_equal. f_equal.
      unfold lookupStep in E2. rewrite I1, Hy in E2. cbn in E2.
      unfold ret in E2. now injection E2 as <- <-.
    + unfold lookupStep in E2. rewrite I1, Hy in E2. cbn in E2.
      unfold ret in E2. now injection E2 as <- <-.
Qed.

Lemma C2_witness :
  let l := lit "![[missing-page]]" in
  ∃ m2 s2,
    parseSingle noFiles testParser l emptyDirectory None emptyState
    = (Return 0%nat, s2)
    ∧ objects s2 !! 0%nat = Some m2
    ∧ deadLinks s2 = {[ l ]} ∪ deadLinks emptyState
    ∧ href m2 = jstr (lit "/stubs/")
    ∧ resolvingFnName m2 = lit "404-embed".
Proof.
  intros l.
  destruct (C2_dead_link_fallback_only_for_default_resolvers
              noFiles testParser l emptyDirectory None emptyState
              (initialMeta l))
    as (m2 & s2 & E & O & Hdefault & _);
    [vm_compute; reflexivity | vm_compute; reflexivity |].
  exists m2, s2. split; [exact E|]. split; [exact O|].
  exact (Hdefault eq_refl eq_refl).
Defined.

(** *** C1 *)

(** C1: evaluation of the parser on the plain link [[[photo.JPG]]] of the
    parser tests.  The name has an image extension, yet the record comes
    back with [isImage = false] and the plain default resolver: image
    detection runs for embeds only. *)
Theorem C1_plain_image_link_is_not_flagged fs this pd stem :
  ∃ m s',
    parseSingle fs this (lit "[[photo.JPG]]") pd stem emptyState
    = (Return 0%nat, s')
    ∧ objects s' !! 0%nat = Some m
    ∧ name m = lit "photo.JPG"
    ∧ isImageFile (name m) = true
    ∧ isImage m = false
    ∧ resolvingFnName m = lit "default".
Proof.
  assert (Hc : linkCache emptyState !! lit "[[photo.JPG]]" = None)
    by (vm_compute; reflexivity).
  rewrite (parseSingle_miss _ _ _ _ _ _ Hc).
  assert (H0 : localSteps this pd (lit "[[photo.JPG]]") stem
               = Return (initialMeta (lit "[[photo.JPG]]")))
    by (vm_compute; reflexivity).
  rewrite H0.
  assert (H1 : imageStep fs this (lit "[[photo.JPG]]") stem
                 (initialMeta (lit "[[photo.JPG]]")) emptyState
               = (Return (initialMeta (lit "[[photo.JPG]]")), emptyState))
    by (vm_compute; reflexivity).
  rewrite H1.
  destruct (lookupStep_returns this pd (lit "[[photo.JPG]]")
              (initialMeta (lit "[[photo.JPG]]")) emptyState)
    as (m2 & s2 & E2 & C2 & O2 & _ & N2 & _ & _ & I2 & R2 & _).
  rewrite E2. unfold linkCache_set. rewrite O2.
  eexists m2, _. split; [reflexivity|].
  split; [reflexivity|].
  rewrite N2, I2, (R2 eq_refl). vm_compute. auto.
Qed.

(** For contrast, the embed of the same tests is flagged and a non-image
    name is not. *)
Example image_embed_is_flagged :
  ∃ m s',
    parseSingle noFiles testParser (lit "![[image.png]]") emptyDirectory None
      emptyState = (Return 0%nat, s')
    ∧ objects s' !! 0%nat = Some m ∧ isImage m = true.
Proof. eexists _, _. vm_compute. auto. Qed.

Example pdf_link_is_not_flagged :
  ∃ m s',
    parseSingle noFiles testParser (lit "[[document.pdf]]") emptyDirectory None
      emptyState = (Return 0%nat, s')
    ∧ objects s' !! 0%nat = Some m ∧ isImage m = false.
Proof. eexists _, _. vm_compute. auto. Qed.

(** *** C4 *)

(** C4: evaluation of the parser on [[[a|b|c]]], a token the link grammar
    accepts with title segment [b|c].  The inner text is split on every
    ["|"] and a title is kept only when there are exactly two parts, so the
    record has no title, whereas the text after the first ["|"] is [b|c]. *)
Theorem C4_title_lost_when_it_contains_a_bar fs this stem :
  ∃ m s',
    parseSingle fs this (lit "[[a|b|c]]") emptyDirectory stem emptyState
    = (Return 0%nat, s')
    ∧ objects s' !! 0%nat = Some m
    ∧ name m = lit "a"
    ∧ title m = None
    ∧ Grammar.match_all (lit "[[a|b|c]]") = [lit "[[a|b|c]]"]
    ∧ after_first (ch "|") (lit "a|b|c") = lit "b|c".
Proof.
  assert (Hc : linkCache emptyState !! lit "[[a|b|c]]" = None)
    by (vm_compute; reflexivity).
  rewrite (parseSingle_miss _ _ _ _ _ _ Hc).
  assert (H0 : localSteps this emptyDirectory (lit "[[a|b|c]]") stem
               = Return (initialMeta (lit "[[a|b|c]]")))
    by (vm_compute; reflexivity).
  rewrite H0.
  assert (H1 : imageStep fs this (lit "[[a|b|c]]") stem
                 (initialMeta (lit "[[a|b|c]]")) emptyState
               = (Return (initialMeta (lit "[[a|b|c]]")), emptyState))
    by (vm_compute; reflexivity).
  rewrite H1.
  eexists _, _. split; [vm_compute; reflexivity|].
  vm_compute. auto 10.
Qed.

(** The part of the title split that holds: surrounding white space is
    trimmed, so both spellings of the tests yield the same name and title. *)
Example title_split_trims :
  linkParts (lit "[[ name | title ]]") = linkParts (lit "[[name|title]]")
  ∧ name (initialMeta (lit "[[ name | title ]]")) = lit "name"
  ∧ title (initialMeta (lit "[[ name | title ]]")) = Some (lit "title")
  ∧ name (initialMeta (lit "[[README.MD]]")) = lit "README"
  ∧ name (initialMeta (lit "[[notes.markdown]]")) = lit "notes".
Proof. vm_compute. auto. Qed.

(** ** Facts about the string primitives *)

Lemma split_unfold c s :
  split c s =
    if includes c s then before_first c s :: split c (after_first c s)
    else [s].
Proof.
  induction s as [|x r IH]; [reflexivity|].
  cbn [split includes existsb before_first after_first].
  rewrite (N.eqb_sym c x).
  destruct (x =? c); [reflexivity|].
  cbn [orb]. fold (includes c r). rewrite IH.
  destruct (includes c r); reflexivity.
Qed.

Lemma first_part_split c s : first_part (split c s) = before_first c s.
Proof.
  rewrite split_unfold. destruct (includes c s) eqn:E; [reflexivity|].
  cbn. induction s as [|x r IH]; [reflexivity|].
  cbn in E |- *. rewrite (N.eqb_sym c x) in E.
  destruct (x =? c); [discriminate|]. cbn in E. f_equal. auto.
Qed.

Lemma includes_app c s t : includes c (s ++ t) = includes c s || includes c t.
Proof. unfold includes. apply existsb_app. Qed.

Lemma before_first_app c s t :
  includes c s = true → before_first c (s ++ t) = before_first c s.
Proof.
  induction s as [|x r IH]; [discriminate|].
  cbn. rewrite (N.eqb_sym c x). destruct (x =? c); [reflexivity|].
  cbn. intros H. f_equal. auto.
Qed.

(** Removing the extension leaves a prefix. *)
Lemma strip_md_prefix s : ∃ t, s = strip_md s ++ t.
Proof.
  induction s as [|x r [t IH]].
  - exists []. reflexivity.
  - cbn [strip_md]. destruct (md_regex_here (x :: r)).
    + exists (x :: r). reflexivity.
    + exists t. cbn. now f_equal.
Qed.

Lemma trimStart_last x c :
  last x = Some c → is_space c = false → last (trimStart x) = Some c.
Proof.
  induction x as [|a r IH]; [discriminate|].
  intros Hl Hc. cbn [trimStart]. destruct (is_space a) eqn:Ea; [|exact Hl].
  destruct r as [|b r'].
  - cbn in Hl. injection Hl as ->. congruence.
  - apply IH; auto.
Qed.

Lemma trim_last x c :
  last x = Some c → is_space c = false → last (trim x) = Some c.
Proof.
  intros Hl Hc. unfold trim, trimEnd.
  pose proof (trimStart_last x c Hl Hc) as H.
  destruct (trimStart x) as [|a r] using rev_ind; [discriminate|].
  rewrite last_snoc in H. injection H as ->.
  rewrite rev_app_distr. cbn [rev app trimStart]. rewrite Hc.
  cbn [rev]. rewrite rev_involutive. apply last_snoc.
Qed.

Lemma replace_first_cons pat rep x r :
  replace_first pat rep (x :: r) =
    if startsWith pat (x :: r) then rep ++ drop (length pat) (x :: r)
    else x :: replace_first pat rep r.
Proof. reflexivity. Qed.

(** Replacing the first escaped delimiter when the first delimiter is the
    escaped one. *)
Lemma replace_first_escaped c s :
  c ≠ ch "/" →
  last (before_first c s) = Some (ch "/") →
  includes c s = true →
  replace_first [ch "/"; c] [c] s
  = removelast (before_first c s) ++ c :: after_first c s.
Proof.
  intros Hc. induction s as [|x r IH]; [discriminate|].
  intros Hl Hi.
  cbn [before_first after_first] in *.
  destruct (x =? c) eqn:Ex; [discriminate|].
  destruct r as [|y r'].
  { cbn in Hi. rewrite (N.eqb_sym c x), Ex in Hi. discriminate. }
  destruct (y =? c) eqn:Ey.
  - apply N.eqb_eq in Ey. subst y.
    cbn [before_first] in Hl. rewrite N.eqb_refl in Hl. cbn in Hl.
    injection Hl as ->.
    rewrite replace_first_cons.
    cbn [startsWith before_first after_first]. rewrite !N.eqb_refl.
    reflexivity.
  - assert (Hns : startsWith [ch "/"; c] (x :: y :: r') = false).
    { cbn [startsWith]. rewrite (N.eqb_sym c y), Ey.
      now rewrite andb_false_r. }
    rewrite replace_first_cons, Hns.
    assert (Hi' : includes c (y :: r') = true).
    { cbn in Hi |- *. rewrite (N.eqb_sym c x), Ex in Hi. exact Hi. }
    assert (Hl' : last (before_first c (y :: r')) = Some (ch "/")).
    { cbn [before_first] in Hl |- *. rewrite Ey in Hl |- *. exact Hl. }
    rewrite (IH Hl' Hi').
    cbn [before_first]. rewrite Ey. reflexivity.
Qed.

(** The record a call returns after a cache miss keeps the name, anchor and
    path flag the local steps computed. *)
Lemma parseSingle_keeps_local_fields fs this l pd stem s m0 :
  linkCache s !! l = None →
  localSteps this pd l stem = Return m0 →
  ∃ m s',
    parseSingle fs this l pd stem s = (Return (length (objects s)), s')
    ∧ objects s' !! length (objects s) = Some m
    ∧ name m = name m0
    ∧ anchor m = anchor m0
    ∧ isPath m = isPath m0
    ∧ isEmbed m = isEmbed m0.
Proof.
  intros Hc H0.
  rewrite (parseSingle_miss _ _ _ _ _ _ Hc), H0.
  destruct (imageStep_returns fs this l stem m0 s)
    as (m1 & s1 & E1 & C1 & O1 & D1 & N1 & A1 & B1 & I1 & P1).
  rewrite E1.
  destruct (lookupStep_returns this pd l m1 s1)
    as (m2 & s2 & E2 & C2 & O2 & D2 & N2 & A2 & B2 & I2 & _ & P2).
  rewrite E2. unfold linkCache_set.
  eexists m2, _. split; [rewrite O2, O1; reflexivity|].
  split; [apply list_lookup_middle; reflexivity|].
  repeat split; congruence.
Qed.

Lemma split_head c s : ∃ rest, split c s = before_first c s :: rest.
Proof.
  pose proof (first_part_split c s) as H.
  rewrite split_unfold in *. destruct (includes c s); cbn in *; eauto.
  rewrite <- H. eauto.
Qed.

Lemma parseSingle_return_fields fs this l pd stem s r s' :
  linkCache s !! l = None →
  parseSingle fs this l pd stem s = (Return r, s') →
  ∃ m0 m,
    localSteps this pd l stem = Return m0
    ∧ objects s' !! r = Some m
    ∧ name m = name m0 ∧ anchor m = anchor m0
    ∧ isPath m = isPath m0 ∧ isEmbed m = isEmbed m0.
Proof.
  intros Hc H.
  destruct (parseSingle_return_miss _ _ _ _ _ _ _ _ Hc H)
    as (m0 & _ & _ & _ & _ & H0 & _).
  destruct (parseSingle_keeps_local_fields fs this l pd stem s m0 Hc H0)
    as (m & s'' & E & O & F).
  rewrite E in H. injection H as <- <-. eauto.
Qed.

(** *** C5 *)

Lemma before_first_absent c s : includes c s = false → before_first c s = s.
Proof.
  induction s as [|x r IH]; [reflexivity|].
  cbn. rewrite (N.eqb_sym c x). destruct (x =? c); [discriminate|].
  cbn. intros H. f_equal. auto.
Qed.

(** What the anchor step computes when the working name contains ["#"]:
    [split] cuts the first part at every ["#"], and the step looks at the
    first two trimmed pieces. *)
Lemma anchorStep_pieces l :
  let p0 := first_part (linkParts l) in
  let n0 := name (initialMeta l) in
  let m := anchorStep (linkParts l) (initialMeta l) in
  let before := trim (before_first (ch "#") p0) in
  includes (ch "#") n0 = true →
  before_first (ch "#") p0 = before_first (ch "#") n0
  ∧ (last before ≠ Some (ch "/") →
     name m = before
     ∧ anchor m
       = Some (trim (before_first (ch "#") (after_first (ch "#") p0))))
  ∧ (last before = Some (ch "/") →
     anchor m = None
     ∧ name m = replace_first (lit "/#") (lit "#") n0).
Proof.
  intros p0 n0 m before Hinc.
  assert (Hn0 : n0 = strip_md p0) by reflexivity.
  destruct (strip_md_prefix p0) as [t Ht]. rewrite <- Hn0 in Ht.
  assert (Hp0 : includes (ch "#") p0 = true).
  { rewrite Ht, includes_app, Hinc. reflexivity. }
  assert (Hbf : before_first (ch "#") p0 = before_first (ch "#") n0).
  { rewrite Ht at 1. now apply before_first_app. }
  assert (Hparts :
    ∃ rest, map trim (split (ch "#") p0)
            = before
              :: trim (before_first (ch "#") (after_first (ch "#") p0))
              :: rest).
  { rewrite split_unfold, Hp0.
    destruct (split_head (ch "#") (after_first (ch "#") p0)) as [rest ->].
    cbn [map]. eauto. }
  destruct Hparts as [rest Hparts].
  assert (Hm : m = anchorStep (linkParts l) (initialMeta l)) by reflexivity.
  unfold anchorStep in Hm. fold n0 p0 in Hm.
  rewrite Hinc, Hparts in Hm. cbn [first_part hd] in Hm.
  unfold at_last in Hm.
  split; [exact Hbf|]. split.
  - intros Hl. rewrite bool_decide_eq_false_2 in Hm by exact Hl.
    cbn [negb] in Hm. rewrite Hm. split; reflexivity.
  - intros Hl. rewrite bool_decide_eq_true_2 in Hm by exact Hl.
    cbn [negb] in Hm. rewrite Hm. split; reflexivity.
Qed.

(** C5 (as amended): when the working name contains ["#"], the pieces
    around it are taken from the first part of the title split and trimmed.
    If the trimmed text before the first ["#"] does not end in ["/"] and
    there is no second ["#"], that text becomes [name] and the trimmed text
    after the ["#"] becomes [anchor].  If it ends in ["/"], no anchor is
    extracted and the first ["/#"] of the working name is replaced by
    ["#"]; when the ["/"] stands right before the first ["#"] this removes
    exactly that ["/"].  The anchor survives to the returned record, and
    the two tokens of the specification yield the stated names and
    anchors. *)
Theorem C5_anchor_split :
  (∀ l,
     let p0 := first_part (linkParts l) in
     let n0 := name (initialMeta l) in
     let m := anchorStep (linkParts l) (initialMeta l) in
     let before := trim (before_first (ch "#") p0) in
     includes (ch "#") n0 = true →
     (last before ≠ Some (ch "/") →
      includes (ch "#") (after_first (ch "#") p0) = false →
      name m = before
      ∧ anchor m = Some (trim (after_first (ch "#") p0)))
     ∧ (last before = Some (ch "/") →
        anchor m = None
        ∧ name m = replace_first (lit "/#") (lit "#") n0)
     ∧ (last (before_first (ch "#") n0) = Some (ch "/") →
        anchor m = None
        ∧ name m = removelast (before_first (ch "#") n0)
                   ++ ch "#" :: after_first (ch "#") n0))
  ∧ (∀ fs this l pd stem s r s',
       linkCache s !! l = None →
       parseSingle fs this l pd stem s = (Return r, s') →
       ∃ m, objects s' !! r = Some m
            ∧ anchor m = anchor (anchorStep (linkParts l) (initialMeta l)))
  ∧ (∀ fs this pd stem,
       ∃ m s',
         parseSingle fs this (lit "[[page#section]]") pd stem emptyState
         = (Return 0%nat, s')
         ∧ objects s' !! 0%nat = Some m
         ∧ name m = lit "page" ∧ anchor m = Some (lit "section"))
  ∧ (∀ fs this pd stem,
       ∃ m s',
         parseSingle fs this (lit "[[Page about C/#]]") pd stem emptyState
         = (Return 0%nat, s')
         ∧ objects s' !! 0%nat = Some m
         ∧ name m = lit "Page about C#" ∧ anchor m = None).
Proof.
  split; [|split; [|split]].
  - intros l p0 n0 m before Hinc.
    destruct (anchorStep_pieces l Hinc) as (Hbf & Hplain & Hesc).
    fold p0 n0 m before in Hbf, Hplain, Hesc.
    split; [|split].
    + intros Hl Hone. destruct (Hplain Hl) as [Hn Ha].
      split; [exact Hn|]. rewrite Ha. now rewrite before_first_absent.
    + exact Hesc.
    + intros Hl.
      assert (Hl' : last before = Some (ch "/")).
      { unfold before. rewrite Hbf. apply trim_last; [exact Hl|].
        vm_compute. reflexivity. }
      destruct (Hesc Hl') as [Ha Hn]. split; [exact Ha|]. rewrite Hn.
      change (lit "/#") with [ch "/"; ch "#"].
      change (lit "#") with [ch "#"].
      apply replace_first_escaped; auto; vm_compute; discriminate.
  - intros fs this l pd stem s r s' Hc H.
    destruct (parseSingle_return_fields _ _ _ _ _ _ _ _ Hc H)
      as (m0 & m & H0 & O & _ & A & _).
    exists m. split; [exact O|]. rewrite A.
    now destruct (localSteps_fields _ _ _ _ _ H0) as (_ & _ & _ & _ & _ & ->).
  - intros fs this pd stem.
    assert (Hc : linkCache emptyState !! lit "[[page#section]]" = None)
      by (vm_compute; reflexivity).
    assert (H0 : localSteps this pd (lit "[[page#section]]") stem
                 = Return (anchorStep (linkParts (lit "[[page#section]]"))
                             (initialMeta (lit "[[page#section]]"))))
      by (vm_compute; reflexivity).
    destruct (parseSingle_keeps_local_fields fs this _ pd stem _ _ Hc H0)
      as (m & s' & E & O & N & A & _).
    change (length (objects emptyState)) with 0%nat in E, O.
    exists m, s'. rewrite E, O, N, A. vm_compute. auto.
  - intros fs this pd stem.
    assert (Hc : linkCache emptyState !! lit "[[Page about C/#]]" = None)
      by (vm_compute; reflexivity).
    assert (H0 : localSteps this pd (lit "[[Page about C/#]]") stem
                 = Return (anchorStep (linkParts (lit "[[Page about C/#]]"))
                             (initialMeta (lit "[[Page about C/#]]"))))
      by (vm_compute; reflexivity).
    destruct (parseSingle_keeps_local_fields fs this _ pd stem _ _ Hc H0)
      as (m & s' & E & O & N & A & _).
    change (length (objects emptyState)) with 0%nat in E, O.
    exists m, s'. rewrite E, O, N, A. vm_compute. auto.
Qed.

Lemma C5_witness :
  let l := lit "[[hello-world#heading one]]" in
  let m := anchorStep (linkParts l) (initialMeta l) in
  name m = trim (before_first (ch "#") (first_part (linkParts l)))
  ∧ anchor m = Some (trim (after_first (ch "#") (first_part (linkParts l)))).
Proof.
  intros l m.
  refine (proj1 (proj1 C5_anchor_split l _) _ _);
    [vm_compute; reflexivity | vm_compute; discriminate
     | vm_compute; reflexivity].
Defined.

(** As worded the claim fails in two ways.  The pieces are trimmed: in
    [[[page # section]]] the text before the ["#"] is [page] followed by a
    space and the text after it starts with a space, while name and anchor
    are [page] and [section].  And a second ["#"] ends the anchor: the text
    after the first ["#"] of [[[a#b#c]]] is [b#c], the anchor is [b]. *)
Lemma C5_counterexample_trim_and_second_hash :
  let l1 := lit "[[page # section]]" in
  let r1 := parseSingle noFiles testParser l1 emptyDirectory None emptyState in
  let l2 := lit "[[a#b#c]]" in
  let r2 := parseSingle noFiles testParser l2 emptyDirectory None emptyState in
  (includes (ch "#") (name (initialMeta l1)) = true
   ∧ before_first (ch "#") (name (initialMeta l1)) = lit "page "
   ∧ after_first (ch "#") (name (initialMeta l1)) = lit " section"
   ∧ r1.1 = Return 0%nat
   ∧ name <$> (objects r1.2 !! 0%nat) = Some (lit "page")
   ∧ name <$> (objects r1.2 !! 0%nat)
     ≠ Some (before_first (ch "#") (name (initialMeta l1)))
   ∧ anchor <$> (objects r1.2 !! 0%nat) = Some (Some (lit "section")))
  ∧ (includes (ch "#") (name (initialMeta l2)) = true
     ∧ last (before_first (ch "#") (name (initialMeta l2))) ≠ Some (ch "/")
     ∧ after_first (ch "#") (name (initialMeta l2)) = lit "b#c"
     ∧ r2.1 = Return 0%nat
     ∧ anchor <$> (objects r2.2 !! 0%nat) = Some (Some (lit "b"))
     ∧ anchor <$> (objects r2.2 !! 0%nat)
       ≠ Some (Some (after_first (ch "#") (name (initialMeta l2))))).
Proof. vm_compute. repeat split; auto; discriminate. Qed.

Lemma startsWith_app_l p q s :
  startsWith (p ++ q) s = true → startsWith p s = true.
Proof.
  revert s. induction p as [|a p IH]; intros s; [reflexivity|].
  destruct s as [|b s]; [discriminate|]. cbn.
  intros [-> H]%andb_true_iff. cbn. eauto.
Qed.

Lemma relative_is_path n :
  startsWith (lit "./") n || startsWith (lit "../") n = true →
  startsWith (lit "/") n || startsWith (lit "../") n || startsWith (lit "./") n
  = true
  ∧ startsWith (lit ".") n = true.
Proof.
  intros [H|H]%orb_true_iff; rewrite H; split;
    rewrite ?orb_true_r; auto.
  - apply (startsWith_app_l (lit ".") (lit "/")). exact H.
  - apply (startsWith_app_l (lit ".") (lit "./")). exact H.
Qed.

Lemma path_and_dot_is_relative n :
  (startsWith (lit "/") n || startsWith (lit "../") n
   || startsWith (lit "./") n)
  && startsWith (lit ".") n
  = startsWith (lit "./") n || startsWith (lit "../") n.
Proof.
  destruct (startsWith (lit "./") n || startsWith (lit "../") n) eqn:E.
  - destruct (relative_is_path _ E) as [-> ->]. reflexivity.
  - apply orb_false_iff in E as [-> ->]. rewrite !orb_false_r.
    change (lit "/") with [ch "/"]. change (lit ".") with [ch "."].
    destruct n as [|x n]; [reflexivity|]. cbn [startsWith].
    destruct (ch "/" =? x) eqn:Ex; [|reflexivity].
    apply N.eqb_eq in Ex. subst x. reflexivity.
Qed.

(** *** C6 *)








Lemma errors_differ prefix l stem :
  UnresolvedResolverError prefix l stem ≠ MissingContextError.
Proof.
  intros H. apply (f_equal message) in H.
  apply (f_equal (take 11)) in H. vm_compute in H. discriminate.
Qed.

(** *** C7 *)

(** C7 (as amended): an uncached token whose working name starts with
    ["./"] or ["../"], interpreted without a referencing path (absent or
    empty), makes [parseSingle] throw the missing-context error at once,
    with the state untouched, and the error is thrown in no other
    situation: not for a cached token, not with a referencing path, and not
    for a working name that does not start with ["./"] or ["../"], be it one
    that starts with ["/"] or one that merely starts with ["."]. *)
Theorem C7_relative_path_needs_referencing_path :
  (∀ fs this l pd stem s,
     let m3 := anchorStep (linkParts l) (initialMeta l) in
     linkCache s !! l = None →
     startsWith (lit "./") (name m3) || startsWith (lit "../") (name m3) = true →
     truthy stem = false →
     parseSingle fs this l pd stem s = (Throw MissingContextError, s))
  ∧ (∀ fs this l pd stem s,
       let m3 := anchorStep (linkParts l) (initialMeta l) in
       (parseSingle fs this l pd stem s).1 = Throw MissingContextError →
       linkCache s !! l = None
       ∧ startsWith (lit "./") (name m3) || startsWith (lit "../") (name m3)
         = true
       ∧ truthy stem = false)
  ∧ (∀ fs this l pd stem s,
       let m3 := anchorStep (linkParts l) (initialMeta l) in
       startsWith (lit "/") (name m3) = true →
       (parseSingle fs this l pd stem s).1 ≠ Throw MissingContextError).
Proof.
  assert (Only : ∀ fs this l pd stem s,
       let m3 := anchorStep (linkParts l) (initialMeta l) in
       (parseSingle fs this l pd stem s).1 = Throw MissingContextError →
       linkCache s !! l = None
       ∧ startsWith (lit "./") (name m3) || startsWith (lit "../") (name m3)
         = true
       ∧ truthy stem = false).
  { intros fs this l pd stem s m3 Hthrow.
    destruct (parseSingle fs this l pd stem s) as [res s'] eqn:H.
    cbn in Hthrow. subst res.
    apply parseSingle_throw_inv in H as (_ & Hc & H).
    split; [exact Hc|].
    unfold localSteps in H. fold m3 in H. unfold pathStep in H.
    cbn [isPath set_isPath name] in H.
    rewrite path_and_dot_is_relative in H.
    destruct (startsWith (lit "./") (name m3)
              || startsWith (lit "../") (name m3)).
    - split; [reflexivity|].
      destruct stem as [[|c stem]|]; try reflexivity.
      unfold resolverStep in H.
      repeat (match type of H with
              | context [if ?b then _ else _] => destruct b
              end; try discriminate);
        injection H as H; destruct (errors_differ _ _ _ H).
    - unfold resolverStep in H.
      repeat (match type of H with
              | context [if ?b then _ else _] => destruct b
              end; try discriminate);
        injection H as H; destruct (errors_differ _ _ _ H). }
  split; [|split; [exact Only|]].
  - intros fs this l pd stem s m3 Hc Hrel Hstem.
    destruct (relative_is_path _ Hrel) as [Hpath Hdot].
    rewrite (parseSingle_miss _ _ _ _ _ _ Hc).
    unfold localSteps. fold m3. unfold pathStep. rewrite Hpath.
    cbn [isPath set_isPath name]. rewrite Hdot. cbn [andb].
    destruct stem as [[|c stem]|]; try discriminate; reflexivity.
  - intros fs this l pd stem s m3 Hslash Habs.
    destruct (Only fs this l pd stem s Habs) as (_ & Hrel & _).
    fold m3 in Hrel.
    change (lit "/") with [ch "/"] in Hslash.
    destruct (name m3) as [|x n]; [discriminate|].
    cbn [startsWith] in Hslash.
    apply andb_true_iff in Hslash as [Hx%N.eqb_eq _]. subst x.
    vm_compute in Hrel. discriminate.
Qed.

Lemma C7_witness :
  parseSingle noFiles testParser (lit "[[../a-blog-post.md]]") emptyDirectory
    None emptyState
  = (Throw MissingContextError, emptyState).
Proof.
  refine (proj1 C7_relative_path_needs_referencing_path noFiles testParser
            (lit "[[../a-blog-post.md]]") emptyDirectory None emptyState
            _ _ _);
    vm_compute; reflexivity.
Defined.

(** As worded the claim fails for a working name that starts with ["."]
    without being a path: [[[.hidden]]] and [[[..]]] interpreted without a
    referencing path raise nothing; each comes back as an ordinary record,
    not flagged as a path, and is recorded as a dead link. *)
Lemma C7_counterexample_leading_dot_is_no_path :
  let l1 := lit "[[.hidden]]" in
  let r1 := parseSingle noFiles testParser l1 emptyDirectory None emptyState in
  let l2 := lit "[[..]]" in
  let r2 := parseSingle noFiles testParser l2 emptyDirectory None emptyState in
  (startsWith (lit ".")
     (name (anchorStep (linkParts l1) (initialMeta l1))) = true
   ∧ r1.1 = Return 0%nat
   ∧ r1.1 ≠ Throw MissingContextError
   ∧ name <$> (objects r1.2 !! 0%nat) = Some (lit ".hidden")
   ∧ isPath <$> (objects r1.2 !! 0%nat) = Some false
   ∧ l1 ∈ deadLinks r1.2)
  ∧ (startsWith (lit ".")
       (name (anchorStep (linkParts l2) (initialMeta l2))) = true
     ∧ r2.1 = Return 0%nat
     ∧ r2.1 ≠ Throw MissingContextError
     ∧ name <$> (objects r2.2 !! 0%nat) = Some (lit "..")
     ∧ isPath <$> (objects r2.2 !! 0%nat) = Some false
     ∧ l2 ∈ deadLinks r2.2).
Proof.
  intros l1 r1 l2 r2.
  assert (E1 : r1 = (Return 0%nat,
                     {| linkCache := <[ l1 := 0%nat ]> ∅;
                        objects := [set_href (jstr (lit "/stubs/"))
                                      (initialMeta l1)];
                        deadLinks := {[ l1 ]} ∪ ∅ |})) by reflexivity.
  assert (E2 : r2 = (Return 0%nat,
                     {| linkCache := <[ l2 := 0%nat ]> ∅;
                        objects := [set_href (jstr (lit "/stubs/"))
                                      (initialMeta l2)];
                        deadLinks := {[ l2 ]} ∪ ∅ |})) by reflexivity.
  rewrite E1, E2. cbn [fst snd objects deadLinks].
  repeat split; try (vm_compute; reflexivity); try discriminate;
    set_solver.
Qed.

(** *** C8 *)

(** C8 (as amended): for an uncached token that reaches the resolver step
    with a working name containing [":"], the escape test is made on the
    trimmed text before the first [":"].  If it does not end in ["/"] and is
    not a registered resolver, the page index is asked for the record with
    the whole name; if it finds nothing, [parseSingle] throws the error
    whose message names the prefix, the raw token and the referencing path,
    and if it finds the document the call returns a record that keeps the
    whole name.  If the trimmed text ends in ["/"], also when white space
    separates that ["/"] from the [":"], the [":"] counts as escaped:
    nothing is thrown and the record's name is the working name with its
    first ["/:"], if any, replaced by [":"].  For [[[fail:1234]]] of the
    tests the message is the one the test expects. *)
Theorem C8_unregistered_resolver_prefix :
  (∀ fs this l pd stem s m4,
     let prefix := trim (before_first (ch ":") (name m4)) in
     linkCache s !! l = None →
     pathStep stem (anchorStep (linkParts l) (initialMeta l)) = Return m4 →
     includes (ch ":") (name m4) = true →
     (last prefix ≠ Some (ch "/") →
      unregistered (opts this) prefix = true →
      (found (findByLink pd m4) = false →
       parseSingle fs this l pd stem s
       = (Throw (UnresolvedResolverError prefix l stem), s)
       ∧ message (UnresolvedResolverError prefix l stem)
         = lit "Unable to find resolving fn [" ++ prefix
           ++ lit "] for wikilink " ++ l
           ++ lit " on page [" ++ interpolate stem ++ lit "]")
      ∧ (found (findByLink pd m4) = true →
         ∃ m s',
           parseSingle fs this l pd stem s = (Return (length (objects s)), s')
           ∧ objects s' !! length (objects s) = Some m
           ∧ name m = name m4))
     ∧ (last prefix = Some (ch "/") →
        ∃ m s',
          parseSingle fs this l pd stem s = (Return (length (objects s)), s')
          ∧ objects s' !! length (objects s) = Some m
          ∧ name m = replace_first (lit "/:") (lit ":") (name m4)))
  ∧ (∀ fs,
       parseSingle fs testParser (lit "[[fail:1234]]") emptyDirectory
         (Some (lit "/directory/filename")) emptyState
       = (Throw
            {| message :=
                 lit "Unable to find resolving fn [fail] for wikilink [[fail:1234]] on page [/directory/filename]" |},
          emptyState)).
Proof.
  split.
  - intros fs this l pd stem s m4 prefix Hc Hp Hcolon.
    assert (Hparts : first_part (map trim (split (ch ":") (name m4))) = prefix).
    { destruct (split_head (ch ":") (name m4)) as [rest ->]. reflexivity. }
    split.
    + intros Hesc Hun.
      assert (Hstep : ∀ r,
        (if found (findByLink pd m4) then Return m4
         else Throw (UnresolvedResolverError prefix l stem)) = r →
        localSteps this pd l stem = r).
      { intros r <-. unfold localSteps. rewrite Hp. unfold resolverStep.
        rewrite Hcolon. cbn zeta. rewrite Hparts. unfold at_last.
        rewrite bool_decide_eq_false_2 by exact Hesc. cbn [negb].
        rewrite Hun. reflexivity. }
      split.
      * intros Hf. rewrite Hf in Hstep. split; [|reflexivity].
        rewrite (parseSingle_miss _ _ _ _ _ _ Hc).
        now rewrite (Hstep _ eq_refl).
      * intros Hf. rewrite Hf in Hstep.
        destruct (parseSingle_keeps_local_fields fs this l pd stem s m4 Hc
                    (Hstep _ eq_refl)) as (m & s' & E & O & N & _).
        eauto.
    + intros Hesc.
      assert (Hstep : localSteps this pd l stem
                      = Return (set_name
                                  (replace_first (lit "/:") (lit ":") (name m4))
                                  m4)).
      { unfold localSteps. rewrite Hp. unfold resolverStep.
        rewrite Hcolon. cbn zeta. rewrite Hparts. unfold at_last.
        rewrite bool_decide_eq_true_2 by exact Hesc. reflexivity. }
      destruct (parseSingle_keeps_local_fields fs this l pd stem s _ Hc Hstep)
        as (m & s' & E & O & N & _).
      exists m, s'. repeat split; auto.
  - intros fs. vm_compute. reflexivity.
Qed.

Lemma C8_witness :
  let l := lit "[[nope: 1234]]" in
  let stem := Some (lit "/directory/filename") in
  parseSingle noFiles testParser l emptyDirectory stem emptyState
  = (Throw (UnresolvedResolverError (lit "nope") l stem), emptyState)
  ∧ message (UnresolvedResolverError (lit "nope") l stem)
    = lit "Unable to find resolving fn [" ++ lit "nope"
      ++ lit "] for wikilink " ++ l
      ++ lit " on page [" ++ interpolate stem ++ lit "]".
Proof.
  intros l stem.
  refine (proj1 (proj1 (proj1 C8_unregistered_resolver_prefix noFiles
                          testParser l emptyDirectory stem emptyState
                          (set_isPath false (initialMeta l)) _ _ _) _ _) _);
    try (vm_compute; reflexivity).
  vm_compute. discriminate.
Defined.

(** As worded the claim fails when white space separates a ["/"] from the
    [":"]: in [[[foo/ :bar]]] the unit before the [":"] is a space, so the
    [":"] is unescaped in the claim's sense, no resolver [foo/] is
    registered and the page index has no document; yet nothing is thrown:
    the trimmed prefix [foo/] ends in ["/"], the call returns a record that
    keeps the whole name and the token is recorded as a dead link. *)
Lemma C8_counterexample_space_before_colon :
  let l := lit "[[foo/ :bar]]" in
  let stem := Some (lit "/directory/filename") in
  let m4 := anchorStep (linkParts l) (initialMeta l) in
  let r := parseSingle noFiles testParser l emptyDirectory stem emptyState in
  includes (ch ":") (name m4) = true
  ∧ pathStep stem m4 = Return (set_isPath false m4)
  ∧ last (before_first (ch ":") (name m4)) = Some (ch " ")
  ∧ last (before_first (ch ":") (name m4)) ≠ Some (ch "/")
  ∧ unregistered (opts testParser) (trim (before_first (ch ":") (name m4)))
    = true
  ∧ unregistered (opts testParser) (before_first (ch ":") (name m4)) = true
  ∧ found (findByLink emptyDirectory (set_isPath false m4)) = false
  ∧ r.1 = Return 0%nat
  ∧ name <$> (objects r.2 !! 0%nat) = Some (lit "foo/ :bar")
  ∧ l ∈ deadLinks r.2.
Proof.
  intros l stem m4 r.
  assert (E : r = (Return 0%nat,
                   {| linkCache := <[ l := 0%nat ]> ∅;
                      objects := [set_href (jstr (lit "/stubs/"))
                                    (initialMeta l)];
                      deadLinks := {[ l ]} ∪ ∅ |})) by reflexivity.
  rewrite E. cbn [fst snd objects deadLinks].
  repeat split; try (vm_compute; reflexivity); try discriminate;
    set_solver.
Qed.

(** ** The link grammar: matcher against the textual form *)

Lemma startsWith_spec p s :
  startsWith p s = true ↔ ∃ r, s = p ++ r.
Proof.
  revert s. induction p as [|a p IH]; intros s.
  - split; [exists s; reflexivity | reflexivity].
  - destruct s as [|b s]; cbn.
    + split; [discriminate | intros [r Hr]; discriminate].
    + rewrite andb_true_iff, N.eqb_eq, IH. split.
      * intros [-> [r ->]]. eauto.
      * intros [r Hr]. injection Hr as -> ->. eauto.
Qed.

Lemma lazy_plus_sound ok k s n :
  Grammar.lazy_plus ok k s = Some n →
  ∃ x r j,
    s = x ++ r ∧ x ≠ [] ∧ Forall (λ c, ok c = true) x
    ∧ k r = Some j ∧ n = (length x + j)%nat.
Proof.
  revert n. induction s as [|c s IH]; intros n; [discriminate|].
  cbn [Grammar.lazy_plus]. destruct (ok c) eqn:Hc; [|discriminate].
  destruct (k s) as [j|] eqn:Hk.
  - intros [= <-]. exists [c], s, j. repeat split; auto.
  - destruct (Grammar.lazy_plus ok k s) as [n'|]; [|discriminate].
    intros [= <-].
    destruct (IH n' eq_refl) as (x & r & j & -> & _ & Hx & Hj & ->).
    exists (c :: x), r, j. repeat split; auto.
Qed.

Lemma lazy_plus_complete ok k x r :
  x ≠ [] → Forall (λ c, ok c = true) x → is_Some (k r) →
  is_Some (Grammar.lazy_plus ok k (x ++ r)).
Proof.
  intros Hne Hx Hk. induction Hx as [|c x Hc Hx IH]; [done|].
  cbn [app Grammar.lazy_plus]. rewrite Hc.
  destruct (k (x ++ r)) as [j|] eqn:E; [eauto|].
  destruct x as [|c' x'].
  - cbn in E. rewrite E in Hk. destruct Hk; discriminate.
  - destruct IH as [n Hn]; [done|]. rewrite Hn. cbn. eauto.
Qed.

Lemma closing_sound s j :
  Grammar.closing s = Some j → ∃ r, s = lit "]]" ++ r ∧ j = 2%nat.
Proof.
  unfold Grammar.closing. destruct (startsWith (lit "]]") s) eqn:E; [|discriminate].
  intros [= <-]. apply startsWith_spec in E as [r ->]. eauto.
Qed.

Lemma closing_complete r : Grammar.closing (lit "]]" ++ r) = Some 2%nat.
Proof. reflexivity. Qed.

Lemma title_group_sound s j :
  Grammar.title_group s = Some j →
  ∃ tl r,
    s = tl ++ lit "]]" ++ r
    ∧ (tl = [] ∨ ∃ y, tl = ch "|" :: y ∧ title_segment y)
    ∧ j = (length tl + 2)%nat.
Proof.
  unfold Grammar.title_group.
  assert (Hclose : Grammar.closing s = Some j →
                   ∃ tl r, s = tl ++ lit "]]" ++ r
                     ∧ (tl = [] ∨ ∃ y, tl = ch "|" :: y ∧ title_segment y)
                     ∧ j = (length tl + 2)%nat).
  { intros (r & -> & ->)%closing_sound. exists [], r. auto. }
  destruct s as [|c s]; [exact Hclose|].
  destruct (c =? ch "|") eqn:Ec; [|exact Hclose].
  destruct (Grammar.lazy_plus Grammar.title_unit Grammar.closing s)
    as [n|] eqn:E; [|exact Hclose].
  cbn. intros [= <-]. apply N.eqb_eq in Ec. subst c.
  apply lazy_plus_sound in E as (y & r & j' & -> & Hne & Hy & Hj & ->).
  apply closing_sound in Hj as (r' & -> & ->).
  exists (ch "|" :: y), r'. split; [reflexivity|].
  split; [right; exists y; repeat split; auto|].
  cbn. lia.
Qed.

Lemma title_group_complete tl r :
  (tl = [] ∨ ∃ y, tl = ch "|" :: y ∧ title_segment y) →
  is_Some (Grammar.title_group (tl ++ lit "]]" ++ r)).
Proof.
  intros [-> | (y & -> & Hne & Hy)].
  - cbn. eauto.
  - unfold Grammar.title_group. cbn [app]. rewrite N.eqb_refl.
    destruct (lazy_plus_complete Grammar.title_unit Grammar.closing y
                (lit "]]" ++ r) Hne Hy) as [n Hn].
    { rewrite closing_complete. eauto. }
    rewrite Hn. cbn. eauto.
Qed.

Lemma brackets_sound s n :
  Grammar.brackets s = Some n →
  ∃ x tl r,
    s = lit "[[" ++ x ++ tl ++ lit "]]" ++ r
    ∧ name_segment x
    ∧ (tl = [] ∨ ∃ y, tl = ch "|" :: y ∧ title_segment y)
    ∧ n = length (lit "[[" ++ x ++ tl ++ lit "]]").
Proof.
  unfold Grammar.brackets.
  destruct (startsWith (lit "[[") s) eqn:E; [|discriminate].
  apply startsWith_spec in E as [s' ->].
  change (drop 2 (lit "[[" ++ s')) with s'.
  destruct (Grammar.lazy_plus Grammar.name_unit Grammar.title_group s')
    as [n'|] eqn:El; [|discriminate].
  cbn. intros [= <-].
  apply lazy_plus_sound in El as (x & r & j & -> & Hne & Hx & Hj & ->).
  apply title_group_sound in Hj as (tl & r' & -> & Htl & ->).
  exists x, tl, r'. repeat split; auto.
  rewrite !length_app.
  change (length (lit "[[")) with 2%nat.
  change (length (lit "]]")) with 2%nat. lia.
Qed.

Lemma brackets_complete x tl r :
  name_segment x →
  (tl = [] ∨ ∃ y, tl = ch "|" :: y ∧ title_segment y) →
  is_Some (Grammar.brackets (lit "[[" ++ x ++ tl ++ lit "]]" ++ r)).
Proof.
  intros [Hne Hx] Htl. unfold Grammar.brackets.
  change (startsWith (lit "[[") (lit "[[" ++ x ++ tl ++ lit "]]" ++ r))
    with true.
  change (drop 2 (lit "[[" ++ x ++ tl ++ lit "]]" ++ r))
    with (x ++ tl ++ lit "]]" ++ r).
  destruct (lazy_plus_complete Grammar.name_unit Grammar.title_group x
              (tl ++ lit "]]" ++ r) Hne Hx) as [n Hn].
  { now apply title_group_complete. }
  rewrite Hn. cbn. eauto.
Qed.

Lemma match_here_sound prev s n :
  Grammar.match_here prev s = Some n →
  prev ≠ Some (ch "!")
  ∧ ∃ t r, s = t ++ r ∧ token_form t ∧ n = length t.
Proof.
  unfold Grammar.match_here. case_bool_decide as Hprev; [discriminate|].
  intros H. split; [exact Hprev|].
  assert (Hplain : Grammar.brackets s = Some n →
                   ∃ t r, s = t ++ r ∧ token_form t ∧ n = length t).
  { intros (x & tl & r & -> & Hx & Htl & ->)%brackets_sound.
    exists (lit "[[" ++ x ++ tl ++ lit "]]"), r.
    split; [now rewrite <- !app_assoc|]. split; [|reflexivity].
    exists [], x, tl. auto. }
  destruct s as [|c s]; [exact (Hplain H)|].
  destruct (c =? ch "!") eqn:Ec; [|exact (Hplain H)].
  destruct (Grammar.brackets s) as [n'|] eqn:Eb; [|exact (Hplain H)].
  cbn in H. injection H as <-. apply N.eqb_eq in Ec. subst c.
  apply brackets_sound in Eb as (x & tl & r & -> & Hx & Htl & ->).
  exists (lit "!" ++ lit "[[" ++ x ++ tl ++ lit "]]"), r.
  split; [now rewrite <- !app_assoc|]. split; [|reflexivity].
  exists (lit "!"), x, tl. auto.
Qed.

Lemma match_here_complete prev t r :
  prev ≠ Some (ch "!") → token_form t →
  is_Some (Grammar.match_here prev (t ++ r)).
Proof.
  intros Hprev (bang & x & tl & -> & Hbang & Hx & Htl).
  unfold Grammar.match_here. rewrite bool_decide_eq_false_2 by exact Hprev.
  rewrite <- !app_assoc.
  destruct (brackets_complete x tl r Hx Htl) as [n Hn].
  destruct Hbang as [-> | ->].
  - change ([] ++ lit "[[" ++ x ++ tl ++ lit "]]" ++ r)
      with (ch "[" :: ch "[" :: x ++ tl ++ lit "]]" ++ r) in *.
    change (ch "[" =? ch "!") with false. cbn iota.
    change (ch "[" :: ch "[" :: x ++ tl ++ lit "]]" ++ r)
      with (lit "[[" ++ x ++ tl ++ lit "]]" ++ r).
    rewrite Hn. eauto.
  - change (lit "!" ++ lit "[[" ++ x ++ tl ++ lit "]]" ++ r)
      with (ch "!" :: lit "[[" ++ x ++ tl ++ lit "]]" ++ r).
    cbn iota. rewrite N.eqb_refl, Hn. cbn. eauto.
Qed.

Lemma unit_before_cons prev c pre :
  unit_before prev (c :: pre) = unit_before (Some c) pre.
Proof.
  unfold unit_before. destruct pre as [|d pre]; [reflexivity|].
  change (last (c :: d :: pre)) with (last (d :: pre)).
  destruct (last (d :: pre)) eqn:E; [reflexivity|].
  apply last_None in E. discriminate.
Qed.

Lemma match_all_from_sound s : ∀ prev skip t,
  t ∈ Grammar.match_all_from prev skip s →
  token_form t
  ∧ ∃ pre post, s = pre ++ t ++ post
                ∧ unit_before prev pre ≠ Some (ch "!").
Proof.
  induction s as [|c s IH]; intros prev skip t Ht.
  { cbn in Ht. inversion Ht. }
  assert (Hlater : ∀ k, t ∈ Grammar.match_all_from (Some c) k s →
            token_form t
            ∧ ∃ pre post, c :: s = pre ++ t ++ post
                          ∧ unit_before prev pre ≠ Some (ch "!")).
  { intros k Hk. destruct (IH _ _ _ Hk) as (Hf & pre & post & -> & Hb).
    split; [exact Hf|]. exists (c :: pre), post.
    split; [reflexivity|]. now rewrite unit_before_cons. }
  cbn [Grammar.match_all_from] in Ht.
  destruct skip as [|k]; [|exact (Hlater _ Ht)].
  destruct (Grammar.match_here prev (c :: s)) as [n|] eqn:E;
    [|exact (Hlater _ Ht)].
  apply elem_of_cons in Ht as [-> | Ht]; [|exact (Hlater _ Ht)].
  apply match_here_sound in E as (Hprev & t & r & Hs & Hf & ->).
  rewrite Hs, take_app_length. split; [exact Hf|].
  exists [], r. split; [reflexivity|exact Hprev].
Qed.

Lemma match_all_from_complete pre : ∀ prev t post,
  token_form t →
  unit_before prev pre ≠ Some (ch "!") →
  Grammar.match_all_from prev 0 (pre ++ t ++ post) ≠ [].
Proof.
  induction pre as [|c pre IH]; intros prev t post Hf Hb.
  - destruct (match_here_complete prev t post Hb Hf) as [n Hn].
    cbn [app] in *.
    destruct (t ++ post) as [|c s] eqn:E.
    + destruct Hf as (bang & x & tl & -> & _).
      destruct bang; discriminate.
    + cbn [Grammar.match_all_from]. rewrite Hn. discriminate.
  - cbn [app Grammar.match_all_from].
    destruct (Grammar.match_here prev (c :: pre ++ t ++ post));
      [discriminate|].
    apply IH; [exact Hf|]. now rewrite <- unit_before_cons with (prev := prev).
Qed.

Lemma unit_before_None pre : unit_before None pre = last pre.
Proof. unfold unit_before. now destruct (last pre). Qed.

(** *** C9 *)

(** C9 (as amended): every token the extractor returns is an optional
    ["!"], ["[["], a non-empty name segment without ["|"] and newline,
    optionally ["|"] and a non-empty title segment without newline, and
    ["]]"], and its first unit is not preceded by ["!"] in the document;
    the pattern matches at a position iff that position is not preceded by
    ["!"] and such a token starts there; a document yields no token iff no
    such token occurs in it at a position not preceded by ["!"].  The two
    documents with an embedded newline yield no token and the non-ASCII
    document yields exactly one. *)
Theorem C9_link_grammar :
  (∀ document t,
     t ∈ Grammar.match_all document →
     token_form t
     ∧ ∃ pre post, document = pre ++ t ++ post ∧ last pre ≠ Some (ch "!"))
  ∧ (∀ prev s,
       is_Some (Grammar.match_here prev s)
       ↔ prev ≠ Some (ch "!") ∧ ∃ t r, s = t ++ r ∧ token_form t)
  ∧ (∀ document,
       Grammar.match_all document = []
       ↔ ¬ ∃ pre t post,
             document = pre ++ t ++ post
             ∧ token_form t ∧ last pre ≠ Some (ch "!"))
  ∧ Grammar.match_all (lit "[[ broken " ++ [10] ++ lit "wikilink ]]") = []
  ∧ Grammar.match_all (lit "[[" ++ [10] ++ lit " broken wikilink]]") = []
  ∧ Grammar.match_all
      (lit "[[" ++ [9825] ++ lit " cinni''s dream home " ++ [9825] ++ lit "]]")
    = [lit "[[" ++ [9825] ++ lit " cinni''s dream home " ++ [9825] ++ lit "]]"].
Proof.
  assert (Sound : ∀ document t,
     t ∈ Grammar.match_all document →
     token_form t
     ∧ ∃ pre post, document = pre ++ t ++ post ∧ last pre ≠ Some (ch "!")).
  { intros document t Ht.
    destruct (match_all_from_sound _ _ _ _ Ht) as (Hf & pre & post & -> & Hb).
    rewrite unit_before_None in Hb. eauto. }
  split; [exact Sound|]. split; [|split].
  - intros prev s. split.
    + intros [n Hn]. apply match_here_sound in Hn as (Hp & t & r & -> & Hf & _).
      eauto.
    + intros (Hp & t & r & -> & Hf). now apply match_here_complete.
  - intros document. split.
    + intros Hnil (pre & t & post & -> & Hf & Hb).
      apply (match_all_from_complete pre None t post Hf); [|exact Hnil].
      now rewrite unit_before_None.
    + intros Hno. destruct (Grammar.match_all document) as [|t ts] eqn:E;
        [reflexivity|].
      exfalso. apply Hno.
      destruct (Sound document t) as (Hf & pre & post & Hd & Hb).
      { rewrite E. left. }
      exists pre, t, post. auto.
  - vm_compute. auto.
Qed.

Lemma C9_witness :
  let document := lit "see ![[diagram.png|300]] and [[notes]]" in
  token_form (lit "![[diagram.png|300]]")
  ∧ ∃ pre post,
      document = pre ++ lit "![[diagram.png|300]]" ++ post
      ∧ last pre ≠ Some (ch "!").
Proof.
  intros document.
  apply (proj1 C9_link_grammar document (lit "![[diagram.png|300]]")).
  vm_compute. left.
Defined.

(** As worded, with segments that may be empty and a restriction on a
    leading ["!"] only, the form also covers [[[]]] and the [[[x]]] inside
    [!![[x]]]; the extractor finds neither. *)
Lemma C9_counterexample_empty_name :
  claimed_form (lit "[[]]")
  ∧ Grammar.match_all (lit "[[]]") = []
  ∧ claimed_form (lit "[[x]]")
  ∧ lit "!![[x]]" = lit "!!" ++ lit "[[x]]" ++ []
  ∧ Grammar.match_all (lit "!![[x]]") = [].
Proof.
  split; [|split; [|split; [|split]]]; try (vm_compute; reflexivity).
  - exists [], [], []. repeat split; auto.
  - exists [], (lit "x"), []. repeat split; auto.
    repeat constructor.
Qed.

(** ** Checks against the parser tests *)

(** 'populates dead links set': an unknown page is recorded once and gets
    the stub URL. *)
Example dead_link_is_recorded :
  let out := parseSingle noFiles testParser (lit "[[invalid]]") emptyDirectory
               None emptyState in
  out.1 = Return 0%nat
  ∧ elements (deadLinks out.2) = [lit "[[invalid]]"]
  ∧ href <$> (objects out.2 !! 0%nat) = Some (jstr (lit "/stubs/")).
Proof. vm_compute. auto. Qed.

(** 'sets resolvingFnName on finding resolvingFn' *)
Example registered_resolver_is_selected :
  let this := {| opts := {| resolvingFns := Some {[ lit "test" ]};
                            stubUrl := undefined |};
                 inputDir := lit "/" |} in
  let out := parseSingle noFiles this (lit "[[test:1234]]") emptyDirectory
               (Some (lit "/directory/filename")) emptyState in
  out.1 = Return 0%nat
  ∧ resolvingFnName <$> (objects out.2 !! 0%nat) = Some (lit "test")
  ∧ name <$> (objects out.2 !! 0%nat) = Some (lit "1234")
  ∧ deadLinks out.2 = ∅.
Proof. vm_compute. auto. Qed.

(** 'regex does not match on whitespace', second document, and 'regex does
    match special ASCII', second document. *)
Example grammar_further_documents :
  Grammar.match_all (lit "[[ broken |wikilink " ++ [10] ++ lit "]]") = []
  ∧ length (Grammar.match_all
              (lit "[[" ++ [9825] ++ lit " cinni''s dream home " ++ [9825]
               ++ lit "|Cinni]]")) = 1%nat.
Proof. vm_compute. auto. Qed.

(** ** Further properties of [parseSingle] *)

(** Case analysis of a computation recorded in a hypothesis. *)
Ltac split_run H :=
  repeat match type of H with
         | context [match ?x with _ => _ end] => destruct x eqn:?
         | context [if ?b then _ else _] => destruct b eqn:?
         end.

(** What else the local steps leave as the record literal set it, and the
    two ways [resolvingFnName] is decided before the image step. *)
Lemma localSteps_untouched this pd l stem m0 :
  localSteps this pd l stem = Return m0 →
  exists_ m0 = false ∧ page m0 = None ∧ path m0 = None
  ∧ (resolvingFnName m0
     = (if isEmbed m0 then lit "default-embed" else lit "default")
     ∨ (registered (opts this) (resolvingFnName m0)
        ∧ unregistered (opts this) (resolvingFnName m0) = false)).
Proof.
  unfold localSteps. intros H.
  destruct (pathStep stem _) as [m|e0] eqn:Hp; [|discriminate].
  assert (Hm : exists_ m = false ∧ page m = None ∧ path m = None
               ∧ resolvingFnName m
                 = (if isEmbed m then lit "default-embed" else lit "default")).
  { unfold pathStep in Hp.
    assert (Ha : ∀ a, a = anchorStep (linkParts l) (initialMeta l) →
                 exists_ a = false ∧ page a = None ∧ path a = None
                 ∧ resolvingFnName a
                   = (if isEmbed a then lit "default-embed" else lit "default")).
    { intros a ->. unfold anchorStep.
      destruct (includes _ _); [destruct (negb _)|]; cbn; auto. }
    destruct (Ha _ eq_refl) as (? & ? & ? & ?). clear Ha.
    split_run Hp; try discriminate; injection Hp as <-; cbn; auto. }
  destruct Hm as (? & ? & ? & ?).
  unfold resolverStep in H.
  destruct (includes (ch ":") (name m)); [|injection H as <-; auto].
  destruct (negb _); [|injection H as <-; cbn; auto].
  destruct (unregistered (opts this) _) eqn:Hu.
  - destruct (found _); [|discriminate]. injection H as <-. auto.
  - injection H as <-. cbn. repeat split; auto. right. split; [|exact Hu].
    unfold unregistered in Hu. unfold registered.
    destruct (resolvingFns (opts this)) as [fns|]; [|discriminate].
    exists fns. split; [reflexivity|].
    apply negb_false_iff, bool_decide_eq_true in Hu. exact Hu.
Qed.

(** The record a call builds after a cache miss, by the branch taken in the
    image and lookup steps. *)
Lemma fresh_record fs this l pd stem s r s' :
  linkCache s !! l = None →
  parseSingle fs this l pd stem s = (Return r, s') →
  ∃ m0 m,
    localSteps this pd l stem = Return m0
    ∧ r = length (objects s)
    ∧ objects s' = objects s ++ [m]
    ∧ linkCache s' = <[ l := r ]> (linkCache s)
    ∧ link m = l ∧ name m = name m0 ∧ anchor m = anchor m0
    ∧ isEmbed m = isEmbed m0 ∧ isPath m = isPath m0
    ∧ ((isImage m = true ∧ isEmbed m = true ∧ exists_ m = true
        ∧ page m = None ∧ resolvingFnName m = lit "image-embed"
        ∧ deadLinks s' = deadLinks s
        ∧ (∃ res, findImageFile fs (name m0) (inputDir this) stem = Some res
                  ∧ ir_exists res = true
                  ∧ href m = jstr (ir_href res)
                  ∧ path m = Some (fullPath res))
        ∧ (truthy (title m0) = true → title m = title m0))
       ∨ (isImage m = true ∧ isEmbed m = true ∧ exists_ m = false
          ∧ page m = None ∧ resolvingFnName m = lit "404-embed"
          ∧ deadLinks s' = {[ l ]} ∪ deadLinks s
          ∧ href m = stubUrl (opts this) ∧ title m = title m0)
       ∨ (isImage m = false ∧ exists_ m = true
          ∧ resolvingFnName m = resolvingFnName m0
          ∧ deadLinks s' = deadLinks s
          ∧ (∃ pg, lr_page (findByLink pd m0) = Some pg
                   ∧ page m = Some pg ∧ href m = url pg
                   ∧ path m = Some (inputPath pg)
                   ∧ title m
                     = (if foundByAlias (findByLink pd m0) then Some (name m0)
                        else if bool_decide (title m0 = None)
                                && truthy (data_title pg)
                             then data_title pg else title m0)))
       ∨ (isImage m = false ∧ exists_ m = false ∧ page m = None
          ∧ lr_page (findByLink pd m0) = None
          ∧ is_default_fn (resolvingFnName m0) = true
          ∧ resolvingFnName m
            = (if isEmbed m0 then lit "404-embed" else resolvingFnName m0)
          ∧ deadLinks s' = {[ l ]} ∪ deadLinks s
          ∧ href m = stubUrl (opts this) ∧ title m = title m0)
       ∨ (isImage m = false ∧ exists_ m = false ∧ page m = None
          ∧ lr_page (findByLink pd m0) = None
          ∧ is_default_fn (resolvingFnName m0) = false
          ∧ resolvingFnName m = resolvingFnName m0
          ∧ deadLinks s' = deadLinks s
          ∧ href m = undefined ∧ title m = title m0)).
Proof.
  intros Hc H.
  destruct (parseSingle_return_miss _ _ _ _ _ _ _ _ Hc H)
    as (m0 & m1 & s1 & m2 & s2 & H0 & E1 & E2 & Hr & HC & HO & HD).
  destruct (localSteps_fields _ _ _ _ _ H0) as (Hemb & Himg & Hlink & Hhref & _).
  destruct (localSteps_untouched _ _ _ _ _ H0) as (Hex & Hpage & Hpath & _).
  exists m0, m2. split; [exact H0|]. split; [exact Hr|].
  split; [exact HO|]. split; [exact HC|]. rewrite HD. clear H HC HO HD Hc.
  unfold imageStep in E1. unfold lookupStep in E2.
  destruct (isEmbed m0 && isImageFile (name m0)) eqn:Hi.
  - apply andb_true_iff in Hi as [Hi1 Hi2].
    destruct (findImageFile fs _ _ stem) as [[[] h p]|] eqn:Hf; cbn in E1.
    + destruct (negb (truthy (title m0))) eqn:Ht; unfold ret in E1;
        injection E1 as <- <-; cbn in E2; unfold ret in E2;
        injection E2 as <- <-; cbn.
      all: repeat (split; [solve [auto]|]).
      all: left; repeat (split; [solve [auto]|]).
      all: split; [eexists; split; [reflexivity|]; cbn; auto|].
      all: intros Ht'; rewrite Ht' in Ht; try discriminate; reflexivity.
    + unfold bind, deadLinks_add, ret in E1. injection E1 as <- <-.
      cbn in E2. unfold ret in E2. injection E2 as <- <-. cbn.
      repeat (split; [solve [auto]|]). right. left. repeat split; auto.
    + unfold bind, deadLinks_add, ret in E1. injection E1 as <- <-.
      cbn in E2. unfold ret in E2. injection E2 as <- <-. cbn.
      repeat (split; [solve [auto]|]). right. left. repeat split; auto.
  - unfold ret in E1. injection E1 as <- <-. rewrite Himg in E2. cbn in E2.
    destruct (lr_page (findByLink pd m0)) as [pg|] eqn:Hp.
    + unfold ret in E2. injection E2 as <- <-. cbn.
      assert (Hsame : ∀ x : WikilinkMeta,
                x = (if foundByAlias (findByLink pd m0)
                     then set_title (Some (name m0)) m0
                     else if bool_decide (title m0 = None)
                             && truthy (data_title pg)
                          then set_title (data_title pg) m0 else m0) →
                link x = l ∧ name x = name m0 ∧ anchor x = anchor m0
                ∧ isEmbed x = isEmbed m0 ∧ isPath x = isPath m0
                ∧ isImage x = false
                ∧ resolvingFnName x = resolvingFnName m0
                ∧ title x
                  = (if foundByAlias (findByLink pd m0) then Some (name m0)
                     else if bool_decide (title m0 = None)
                             && truthy (data_title pg)
                          then data_title pg else title m0)).
      { intros x ->. repeat case_step; cbn; auto 10. }
      destruct (Hsame _ eq_refl) as (? & ? & ? & ? & ? & ? & ? & ?).
      repeat (split; [solve [auto]|]). right. right. left.
      repeat (split; [solve [auto]|]). exists pg. repeat split; auto.
    + destruct (is_default_fn (resolvingFnName m0)) eqn:Hd.
      * unfold bind, deadLinks_add in E2. cbn in E2.
        destruct (isEmbed m0) eqn:He; unfold ret in E2;
          injection E2 as <- <-; cbn;
          repeat (split; [solve [auto]|]); right; right; right; left;
          repeat split; auto.
      * unfold ret in E2. injection E2 as <- <-.
        repeat (split; [solve [auto]|]). right. right. right. right.
        repeat split; auto.
Qed.

(** One returning call keeps the cache consistent, and the address it
    returns holds the record of the token. *)
Lemma parseSingle_consistent_step fs this s l pd stem r s' :
  cache_consistent s →
  parseSingle fs this l pd stem s = (Return r, s') →
  cache_consistent s' ∧ ∃ m, objects s' !! r = Some m ∧ link m = l.
Proof.
  intros Hs H.
  destruct (linkCache s !! l) as [r0|] eqn:Hc.
  - rewrite (parseSingle_hit _ _ _ _ _ _ _ Hc) in H.
    injection H as <- <-. split; [exact Hs|]. apply Hs. exact Hc.
  - destruct (fresh_record _ _ _ _ _ _ _ _ Hc H)
      as (m0 & m & _ & -> & HO & HC & Hl & _).
    assert (Hm : objects s' !! length (objects s) = Some m).
    { rewrite HO. apply list_lookup_middle. reflexivity. }
    split; [|eauto].
    intros k a Hk. rewrite HC in Hk.
    destruct (decide (l = k)) as [<- | Hne].
    + rewrite lookup_insert_eq in Hk. injection Hk as <-. eauto.
    + rewrite lookup_insert_ne in Hk by exact Hne.
      destruct (Hs _ _ Hk) as (m' & Hm' & Hl'). exists m'.
      split; [|exact Hl']. rewrite HO. now apply lookup_app_l_Some.
Qed.

(** X1: consistency of the cache with the object store is kept by every
    call: from a state where each cached address holds the record of its
    key, after any sequence of calls this still holds, and every address a
    further call returns holds a record whose [link] is the token asked
    for. *)
Theorem cache_stays_consistent fs this s :
  cache_consistent s →
  ∀ cs,
    cache_consistent (run_calls fs this cs s)
    ∧ ∀ l pd stem r s',
        parseSingle fs this l pd stem (run_calls fs this cs s) = (Return r, s') →
        cache_consistent s'
        ∧ ∃ m, objects s' !! r = Some m ∧ link m = l.
Proof.
  assert (Step : ∀ s l pd stem r s',
            cache_consistent s →
            parseSingle fs this l pd stem s = (Return r, s') →
            cache_consistent s' ∧ ∃ m, objects s' !! r = Some m ∧ link m = l).
  { intros s0 l pd stem r s'. apply parseSingle_consistent_step. }
  assert (Any : ∀ s l pd stem,
            cache_consistent s →
            cache_consistent (parseSingle fs this l pd stem s).2).
  { clear s. intros s l pd stem Hs.
    destruct (parseSingle fs this l pd stem s) as [[r|e] s'] eqn:H; cbn.
    - exact (proj1 (Step _ _ _ _ _ _ Hs H)).
    - apply parseSingle_throw_inv in H as (-> & _). exact Hs. }
  intros Hs cs. revert s Hs.
  induction cs as [|c cs IH]; intros s Hs; cbn [run_calls].
  - split; [exact Hs|]. intros l pd stem r s' H. exact (Step _ _ _ _ _ _ Hs H).
  - apply IH. apply Any. exact Hs.
Qed.

Lemma cache_stays_consistent_witness :
  let cs := [ {| call_link := lit "[[a]]"; call_directory := emptyDirectory;
                 call_stem := None |};
              {| call_link := lit "[[../b]]"; call_directory := emptyDirectory;
                 call_stem := None |} ] in
  cache_consistent (run_calls noFiles testParser cs emptyState).
Proof.
  intros cs.
  refine (proj1 (cache_stays_consistent noFiles testParser emptyState _ cs)).
  intros k r Hk. vm_compute in Hk. discriminate.
Defined.

(** X2: the [resolvingFnName] of a record built by [parseSingle] is one of
    the four built-in names or a key of [opts.resolvingFns]. *)
Theorem resolvingFnName_is_builtin_or_registered fs this l pd stem s r s' :
  linkCache s !! l = None →
  parseSingle fs this l pd stem s = (Return r, s') →
  ∃ m, objects s' !! r = Some m
       ∧ (builtin_fn (resolvingFnName m)
          ∨ registered (opts this) (resolvingFnName m)).
Proof.
  intros Hc H.
  destruct (fresh_record _ _ _ _ _ _ _ _ Hc H)
    as (m0 & m & H0 & -> & HO & _ & _ & _ & _ & _ & _ & Hcases).
  exists m. split; [rewrite HO; apply list_lookup_middle; reflexivity|].
  destruct (localSteps_untouched _ _ _ _ _ H0) as (_ & _ & _ & Hfn).
  assert (Hm0 : builtin_fn (resolvingFnName m0)
                ∨ registered (opts this) (resolvingFnName m0)).
  { destruct Hfn as [-> | [Hreg _]]; [left|right; exact Hreg].
    unfold builtin_fn. destruct (isEmbed m0); auto. }
  unfold builtin_fn in *.
  destruct Hcases as [C|[C|[C|[C|C]]]].
  - destruct C as (_ & _ & _ & _ & -> & _). auto.
  - destruct C as (_ & _ & _ & _ & -> & _). auto 6.
  - destruct C as (_ & _ & -> & _). exact Hm0.
  - destruct C as (_ & _ & _ & _ & _ & -> & _).
    destruct (isEmbed m0); [auto 6 | exact Hm0].
  - destruct C as (_ & _ & _ & _ & _ & -> & _). exact Hm0.
Qed.

Lemma resolvingFnName_is_builtin_or_registered_witness :
  ∃ m, objects (parseSingle noFiles testParser (lit "![[pic.png]]")
                  emptyDirectory None emptyState).2 !! 0%nat = Some m
       ∧ (builtin_fn (resolvingFnName m)
          ∨ registered (opts testParser) (resolvingFnName m)).
Proof.
  apply (resolvingFnName_is_builtin_or_registered noFiles testParser
           (lit "![[pic.png]]") emptyDirectory None emptyState 0%nat);
    vm_compute; reflexivity.
Defined.

(** X3: a record with [exists = true] is never recorded as a dead link; a
    record with [exists = false] either is recorded as dead and points at
    the stub URL, or was claimed by a registered non-default resolver, is
    not recorded and has no [href]. *)
Theorem exists_href_and_dead_links fs this l pd stem s r s' :
  linkCache s !! l = None →
  parseSingle fs this l pd stem s = (Return r, s') →
  ∃ m, objects s' !! r = Some m
       ∧ (exists_ m = true → deadLinks s' = deadLinks s)
       ∧ (exists_ m = false →
          (deadLinks s' = {[ l ]} ∪ deadLinks s
           ∧ href m = stubUrl (opts this))
          ∨ (deadLinks s' = deadLinks s
             ∧ href m = undefined
             ∧ is_default_fn (resolvingFnName m) = false
             ∧ registered (opts this) (resolvingFnName m))).
Proof.
  intros Hc H.
  destruct (fresh_record _ _ _ _ _ _ _ _ Hc H)
    as (m0 & m & H0 & -> & HO & _ & _ & _ & _ & _ & _ & Hcases).
  exists m. split; [rewrite HO; apply list_lookup_middle; reflexivity|].
  destruct (localSteps_untouched _ _ _ _ _ H0) as (_ & _ & _ & Hfn).
  destruct Hcases as [C|[C|[C|[C|C]]]].
  - destruct C as (_ & _ & He & _ & _ & Hd & _).
    split; [auto|]. rewrite He. discriminate.
  - destruct C as (_ & _ & He & _ & _ & Hd & Hh & _).
    split; [rewrite He; discriminate|]. auto.
  - destruct C as (_ & He & _ & Hd & _).
    split; [auto|]. rewrite He. discriminate.
  - destruct C as (_ & He & _ & _ & _ & _ & Hd & Hh & _).
    split; [rewrite He; discriminate|]. auto.
  - destruct C as (_ & He & _ & _ & Hdef & Hn & Hd & Hh & _).
    split; [rewrite He; discriminate|]. intros _. right.
    rewrite Hn. repeat split; auto.
    destruct Hfn as [Hfn | [Hreg _]]; [|exact Hreg].
    rewrite Hfn in Hdef. destruct (isEmbed m0); vm_compute in Hdef; discriminate.
Qed.

Lemma exists_href_and_dead_links_witness :
  let out := parseSingle noFiles testParser (lit "[[ghost]]") emptyDirectory
               None emptyState in
  ∃ m, objects out.2 !! 0%nat = Some m
       ∧ (exists_ m = true → deadLinks out.2 = deadLinks emptyState)
       ∧ (exists_ m = false →
          (deadLinks out.2 = {[ lit "[[ghost]]" ]} ∪ deadLinks emptyState
           ∧ href m = stubUrl (opts testParser))
          ∨ (deadLinks out.2 = deadLinks emptyState
             ∧ href m = undefined
             ∧ is_default_fn (resolvingFnName m) = false
             ∧ registered (opts testParser) (resolvingFnName m))).
Proof.
  intros out.
  apply (exists_href_and_dead_links noFiles testParser (lit "[[ghost]]")
           emptyDirectory None emptyState 0%nat);
    vm_compute; reflexivity.
Defined.

(** X4: only tokens that were passed to [parseSingle] are ever recorded as
    dead links, and none is ever removed: a call adds at most its own
    token, so after any sequence of calls the set lies between the initial
    one and the initial one plus the tokens of the calls. *)
Theorem dead_links_grow_by_passed_tokens fs this cs s :
  deadLinks s ⊆ deadLinks (run_calls fs this cs s)
  ∧ deadLinks (run_calls fs this cs s)
    ⊆ deadLinks s ∪ list_to_set (call_link <$> cs).
Proof.
  split; [exact (proj2 (proj2 (run_calls_preserves fs this cs s)))|].
  revert s. induction cs as [|c cs IH]; intros s; cbn [run_calls].
  - set_solver.
  - assert (Hone : deadLinks (parseSingle fs this (call_link c)
                                (call_directory c) (call_stem c) s).2
                   ⊆ {[ call_link c ]} ∪ deadLinks s).
    { destruct (parseSingle fs this (call_link c) (call_directory c)
                  (call_stem c) s) as [[r|e] s1] eqn:H; cbn.
      - destruct (linkCache s !! call_link c) as [r0|] eqn:Hc.
        + rewrite (parseSingle_hit _ _ _ _ _ _ _ Hc) in H.
          injection H as <- <-. set_solver.
        + destruct (fresh_record _ _ _ _ _ _ _ _ Hc H)
            as (m0 & m & _ & _ & _ & _ & _ & _ & _ & _ & _ & Hcases).
          destruct Hcases as [C|[C|[C|[C|C]]]].
          * destruct C as (_ & _ & _ & _ & _ & -> & _). set_solver.
          * destruct C as (_ & _ & _ & _ & _ & -> & _). set_solver.
          * destruct C as (_ & _ & _ & -> & _). set_solver.
          * destruct C as (_ & _ & _ & _ & _ & _ & -> & _). set_solver.
          * destruct C as (_ & _ & _ & _ & _ & _ & -> & _). set_solver.
      - apply parseSingle_throw_inv in H as (-> & _). set_solver. }
    specialize (IH (parseSingle fs this (call_link c) (call_directory c)
                      (call_stem c) s).2).
    cbn [fmap list_fmap list_to_set]. clear - IH Hone. set_solver.
Qed.

(** X5: in a record built by [parseSingle], [isImage] is set exactly for
    embeds whose name has an image extension; such a record never carries a
    page, and its resolver is ['image-embed'] when the file was found and
    ['404-embed'] otherwise. *)
Theorem image_records fs this l pd stem s r s' :
  linkCache s !! l = None →
  parseSingle fs this l pd stem s = (Return r, s') →
  ∃ m, objects s' !! r = Some m
       ∧ isImage m = isEmbed m && isImageFile (name m)
       ∧ (isImage m = true →
          page m = None
          ∧ resolvingFnName m
            = (if exists_ m then lit "image-embed" else lit "404-embed")).
Proof.
  intros Hc H.
  destruct (fresh_record _ _ _ _ _ _ _ _ Hc H)
    as (m0 & m & H0 & -> & HO & _ & _ & Hn & _ & He & _ & Hcases).
  exists m. split; [rewrite HO; apply list_lookup_middle; reflexivity|].
  destruct (localSteps_fields _ _ _ _ _ H0) as (_ & Hi0 & _).
  destruct (parseSingle_return_miss _ _ _ _ _ _ _ _ Hc H)
    as (m0' & m1 & s1 & m2 & s2 & H0' & E1 & E2 & _ & _ & HO' & _).
  rewrite H0 in H0'. injection H0' as <-.
  rewrite HO in HO'. apply app_inv_head in HO'. injection HO' as <-.
  destruct (imageStep_returns fs this l stem m0 s)
    as (m1' & s1' & E1' & _ & _ & _ & _ & _ & _ & I1 & _).
  rewrite E1 in E1'. injection E1' as <- <-.
  destruct (lookupStep_returns this pd l m1 s1)
    as (m2' & s2' & E2' & _ & _ & _ & _ & _ & _ & I2 & _).
  rewrite E2 in E2'. injection E2' as <- <-.
  split.
  - rewrite I2, I1, Hi0, orb_false_r, He, Hn. reflexivity.
  - intros Him.
    destruct Hcases as [C|[C|[C|[C|C]]]].
    + destruct C as (_ & _ & -> & -> & -> & _). auto.
    + destruct C as (_ & _ & -> & -> & -> & _). auto.
    + destruct C as (Hf & _). congruence.
    + destruct C as (Hf & _). congruence.
    + destruct C as (Hf & _). congruence.
Qed.

Lemma image_records_witness :
  let out := parseSingle noFiles testParser (lit "![[pic.PNG|200]]")
               emptyDirectory None emptyState in
  ∃ m, objects out.2 !! 0%nat = Some m
       ∧ isImage m = isEmbed m && isImageFile (name m)
       ∧ (isImage m = true →
          page m = None
          ∧ resolvingFnName m
            = (if exists_ m then lit "image-embed" else lit "404-embed")).
Proof.
  intros out.
  apply (image_records noFiles testParser (lit "![[pic.PNG|200]]")
           emptyDirectory None emptyState 0%nat);
    vm_compute; reflexivity.
Defined.



(** ** When [parseSingle] throws, and what a list of tokens yields *)

(** X7: after a cache miss [parseSingle] throws exactly in two situations:
    the working name starts with ["./"] or ["../"] and there is no
    referencing path, or the path step passes and the name has an
    unescaped, unregistered resolver prefix that the page index does not
    find; in every other situation it returns.  A cache hit always
    returns. *)
Theorem parseSingle_throws_iff fs this l pd stem s :
  let m3 := anchorStep (linkParts l) (initialMeta l) in
  let throws :=
    (startsWith (lit "./") (name m3) || startsWith (lit "../") (name m3))
    && negb (truthy stem)
    || match pathStep stem m3 with
       | Return m4 => unresolved_prefix this pd m4
       | Throw _ => false
       end in
  match linkCache s !! l with
  | Some r => parseSingle fs this l pd stem s = (Return r, s)
  | None =>
      if throws
      then ∃ e, parseSingle fs this l pd stem s = (Throw e, s)
      else ∃ s', parseSingle fs this l pd stem s
                 = (Return (length (objects s)), s')
  end.
Proof.
  intros m3 throws.
  destruct (linkCache s !! l) as [r|] eqn:Hc;
    [now apply parseSingle_hit|].
  assert (Hres : ∀ m4,
            (unresolved_prefix this pd m4 = true →
             ∃ e, resolverStep this pd l stem m4 = Throw e)
            ∧ (unresolved_prefix this pd m4 = false →
               ∃ m, resolverStep this pd l stem m4 = Return m)).
  { intros m4. unfold unresolved_prefix, resolverStep.
    destruct (includes (ch ":") (name m4)); cbn [andb];
      [|split; [discriminate|eauto]].
    destruct (split_head (ch ":") (name m4)) as [rest ->].
    cbn [map first_part hd]. unfold at_last.
    destruct (negb (bool_decide _)); cbn [andb];
      [|split; [discriminate|eauto]].
    destruct (unregistered _ _); cbn [andb];
      [|split; [discriminate|eauto]].
    destruct (found _); cbn [negb]; split; eauto; discriminate. }
  assert (Hpath : if (startsWith (lit "./") (name m3)
                      || startsWith (lit "../") (name m3))
                     && negb (truthy stem)
                  then pathStep stem m3 = Throw MissingContextError
                  else ∃ m4, pathStep stem m3 = Return m4).
  { unfold pathStep. cbn [isPath set_isPath name].
    rewrite path_and_dot_is_relative.
    destruct (startsWith (lit "./") (name m3)
              || startsWith (lit "../") (name m3)); cbn [andb]; [|eauto].
    destruct stem as [[|c st]|]; cbn; eauto. }
  rewrite (parseSingle_miss _ _ _ _ _ _ Hc).
  subst throws. unfold localSteps. fold m3.
  destruct ((startsWith (lit "./") (name m3)
             || startsWith (lit "../") (name m3))
            && negb (truthy stem)) eqn:E; cbn [orb].
  - rewrite Hpath. eauto.
  - destruct Hpath as [m4 Hp4]. rewrite Hp4.
    destruct (unresolved_prefix this pd m4) eqn:Hu.
    + destruct (proj1 (Hres m4) Hu) as [e ->]. eauto.
    + destruct (proj2 (Hres m4) Hu) as [m ->].
      destruct (imageStep_returns fs this l stem m s)
        as (m1 & s1 & E1 & _ & O1 & _). rewrite E1.
      destruct (lookupStep_returns this pd l m1 s1)
        as (m2 & s2 & E2 & _ & O2 & _). rewrite E2.
      unfold linkCache_set. rewrite O2, O1. eauto.
Qed.

Lemma parseSingle_return_cached fs this l pd stem s r s' :
  parseSingle fs this l pd stem s = (Return r, s') →
  linkCache s' !! l = Some r.
Proof.
  intros H. destruct (linkCache s !! l) as [r0|] eqn:Hc.
  - rewrite (parseSingle_hit _ _ _ _ _ _ _ Hc) in H. now injection H as <- <-.
  - destruct (parseSingle_return_miss _ _ _ _ _ _ _ _ Hc H)
      as (? & ? & ? & ? & ? & _ & _ & _ & -> & C & _).
    rewrite C. apply lookup_insert_eq.
Qed.

Lemma parseMultiple_cons fs this l ls pd stem s :
  parseMultiple fs this (l :: ls) pd stem s =
    match parseSingle fs this l pd stem s with
    | (Return r, s1) =>
        match parseMultiple fs this ls pd stem s1 with
        | (Return rs, s2) => (Return (r :: rs), s2)
        | (Throw e, s2) => (Throw e, s2)
        end
    | (Throw e, s1) => (Throw e, s1)
    end.
Proof.
  cbn [parseMultiple]. unfold bind, ret.
  destruct (parseSingle fs this l pd stem s) as [[r|e] s1]; [|reflexivity].
  destruct (parseMultiple fs this ls pd stem s1) as [[rs|e] s2]; reflexivity.
Qed.

(** The state after [parseMultiple] is the state after the calls it makes. *)
Lemma parseMultiple_state fs this links pd stem : ∀ s,
  ∃ done,
    (parseMultiple fs this links pd stem s).2
    = run_calls fs this
        ((λ l, {| call_link := l; call_directory := pd; call_stem := stem |})
           <$> done) s
    ∧ ∃ rest, links = done ++ rest.
Proof.
  induction links as [|l ls IH]; intros s.
  - exists []. split; [reflexivity|]. exists []. reflexivity.
  - rewrite parseMultiple_cons.
    destruct (parseSingle fs this l pd stem s) as [[r|e] s1] eqn:H1.
    + destruct (IH s1) as (done & Hd & rest & ->).
      exists (l :: done). split; [|exists rest; reflexivity].
      cbn [fmap list_fmap run_calls call_link call_directory call_stem].
      rewrite H1. cbn [snd]. rewrite <- Hd.
      destruct (parseMultiple fs this (done ++ rest) pd stem s1) as [[rs|e] s2];
        reflexivity.
    + exists []. split; [|exists (l :: ls); reflexivity].
      apply parseSingle_throw_inv in H1 as (-> & _). reflexivity.
Qed.

(** Positions of the addresses [parseMultiple] returns. *)
Lemma parseMultiple_positions fs this links pd stem s rs s' :
  cache_consistent s →
  parseMultiple fs this links pd stem s = (Return rs, s') →
  length rs = length links
  ∧ cache_consistent s'
  ∧ ∀ i l, links !! i = Some l →
           ∃ r m, rs !! i = Some r
                  ∧ linkCache s' !! l = Some r
                  ∧ objects s' !! r = Some m ∧ link m = l.
Proof.
  revert s rs s'. induction links as [|l ls IH]; intros s rs s' Hs H.
  - cbn in H. unfold ret in H. injection H as <- <-.
    repeat split; auto. intros i l Hi. destruct i; discriminate.
  - rewrite parseMultiple_cons in H.
    destruct (parseSingle fs this l pd stem s) as [[r|e] s1] eqn:H1;
      [|discriminate].
    destruct (parseMultiple fs this ls pd stem s1) as [[rs1|e] s2] eqn:H2;
      [|discriminate].
    injection H as <- <-.
    assert (Hs1 : cache_consistent s1).
    { exact (proj1 (parseSingle_consistent_step _ _ _ _ _ _ _ _ Hs H1)). }
    destruct (IH _ _ _ Hs1 H2) as (Hlen & Hs2 & Hall).
    split; [cbn; now rewrite Hlen|]. split; [exact Hs2|].
    intros [|i] l' Hi.
    + injection Hi as <-.
      assert (Hc2 : linkCache s2 !! l = Some r).
      { destruct (parseMultiple_state fs this ls pd stem s1)
          as (done & Hd & _).
        rewrite H2 in Hd. cbn [snd] in Hd. rewrite Hd.
        apply (proj1 (run_calls_preserves fs this _ s1)).
        now apply parseSingle_return_cached in H1. }
      destruct (Hs2 _ _ Hc2) as (m & Hm & Hl). exists r, m. auto.
    + exact (Hall i l' Hi).
Qed.

(** X8: when [parseMultiple] returns, it returns one address per token, in
    order, and the address at each position is the one the cache holds for
    the token at that position; from a consistent state the record at that
    address is the record of that token. *)
Theorem parseMultiple_aligned fs this links pd stem s rs s' :
  cache_consistent s →
  parseMultiple fs this links pd stem s = (Return rs, s') →
  length rs = length links
  ∧ cache_consistent s'
  ∧ ∀ i l, links !! i = Some l →
           ∃ r m, rs !! i = Some r
                  ∧ linkCache s' !! l = Some r
                  ∧ objects s' !! r = Some m ∧ link m = l.
Proof. apply parseMultiple_positions. Qed.

Lemma parseMultiple_aligned_witness :
  let links := [lit "[[a]]"; lit "![[b.png]]"; lit "[[a]]"] in
  let out := parseMultiple noFiles testParser links emptyDirectory None
               emptyState in
  ∃ rs, out.1 = Return rs
        ∧ length rs = length links
        ∧ cache_consistent out.2
        ∧ ∀ i l, links !! i = Some l →
                 ∃ r m, rs !! i = Some r
                        ∧ linkCache out.2 !! l = Some r
                        ∧ objects out.2 !! r = Some m ∧ link m = l.
Proof.
  intros links out. exists [0; 1; 0]%nat. split; [vm_compute; reflexivity|].
  apply (parseMultiple_aligned noFiles testParser links emptyDirectory None
           emptyState).
  - intros k r Hk. vm_compute in Hk. discriminate.
  - vm_compute. reflexivity.
Defined.

(** X9: when [parseMultiple] throws, the error is the one [parseSingle]
    throws on the first token that fails; the tokens before it have been
    interpreted and their cache entries and dead links stay (nothing is
    rolled back), and no token after it is looked at. *)
Theorem parseMultiple_throws_at_first_failure fs this links pd stem s e s' :
  parseMultiple fs this links pd stem s = (Throw e, s') →
  ∃ before l after rs,
    links = before ++ l :: after
    ∧ parseMultiple fs this before pd stem s = (Return rs, s')
    ∧ parseSingle fs this l pd stem s' = (Throw e, s').
Proof.
  revert s. induction links as [|l ls IH]; intros s H.
  - cbn in H. discriminate.
  - rewrite parseMultiple_cons in H.
    destruct (parseSingle fs this l pd stem s) as [[r|e1] s1] eqn:H1.
    + destruct (parseMultiple fs this ls pd stem s1) as [[rs1|e2] s2] eqn:H2;
        [discriminate|].
      injection H as <- <-.
      destruct (IH _ H2) as (before & l' & after & rs & -> & Hb & Hl).
      exists (l :: before), l', after, (r :: rs).
      split; [reflexivity|]. split; [|exact Hl].
      rewrite parseMultiple_cons, H1, Hb. reflexivity.
    + injection H as <- <-.
      pose proof H1 as H1'.
      apply parseSingle_throw_inv in H1' as (-> & _).
      exists [], l, ls, []. repeat split; auto.
Qed.

Lemma parseMultiple_throws_at_first_failure_witness :
  let links := [lit "[[ghost]]"; lit "[[./x]]"; lit "[[later]]"] in
  let out := parseMultiple noFiles testParser links emptyDirectory None
               emptyState in
  ∃ before l after rs,
    links = before ++ l :: after
    ∧ parseMultiple noFiles testParser before emptyDirectory None emptyState
      = (Return rs, out.2)
    ∧ parseSingle noFiles testParser l emptyDirectory None out.2
      = (Throw MissingContextError, out.2).
Proof.
  intros links out.
  apply (parseMultiple_throws_at_first_failure noFiles testParser links
           emptyDirectory None emptyState MissingContextError out.2).
  vm_compute. reflexivity.
Defined.

(** X10: every record [find] returns belongs to a token of the link
    grammar that occurs in the document: from a consistent state, [find]
    returns one address per extracted token, in document order, and the
    record at each address has as [link] a token of the grammar found in
    the document at a position not preceded by ["!"]. *)
Theorem find_returns_records_of_document_tokens
  fs this document pd stem s rs s' :
  cache_consistent s →
  find fs this document pd stem s = (Return rs, s') →
  length rs = length (Grammar.match_all document)
  ∧ ∀ i r, rs !! i = Some r →
           ∃ m pre post,
             objects s' !! r = Some m
             ∧ Grammar.match_all document !! i = Some (link m)
             ∧ token_form (link m)
             ∧ document = pre ++ link m ++ post
             ∧ last pre ≠ Some (ch "!").
Proof.
  unfold find. intros Hs H.
  destruct (parseMultiple_positions _ _ _ _ _ _ _ _ Hs H) as (Hlen & _ & Hall).
  split; [exact Hlen|].
  intros i r Hi.
  destruct (lookup_lt_is_Some_2 (Grammar.match_all document) i) as [l Hl].
  { rewrite <- Hlen. eapply lookup_lt_Some. exact Hi. }
  destruct (Hall i l Hl) as (r' & m & Hr' & _ & Hm & Hlink).
  rewrite Hi in Hr'. injection Hr' as <-.
  assert (Hin : l ∈ Grammar.match_all document)
    by (eapply list_elem_of_lookup_2; exact Hl).
  destruct (match_all_from_sound _ _ _ _ Hin) as (Hf & pre & post & Hd & Hb).
  rewrite unit_before_None in Hb.
  exists m, pre, post. rewrite Hlink. auto.
Qed.

Lemma find_returns_records_of_document_tokens_witness :
  let document := lit "See [[a]] and ![[b.png|40]], then [[a]] again." in
  let out := find noFiles testParser document emptyDirectory None emptyState in
  ∃ rs, out.1 = Return rs
        ∧ length rs = length (Grammar.match_all document)
        ∧ ∀ i r, rs !! i = Some r →
                 ∃ m pre post,
                   objects out.2 !! r = Some m
                   ∧ Grammar.match_all document !! i = Some (link m)
                   ∧ token_form (link m)
                   ∧ document = pre ++ link m ++ post
                   ∧ last pre ≠ Some (ch "!").
Proof.
  intros document out. exists [0; 1; 0]%nat. split; [vm_compute; reflexivity|].
  apply (find_returns_records_of_document_tokens noFiles testParser document
           emptyDirectory None emptyState).
  - intros k r Hk. vm_compute in Hk. discriminate.
  - vm_compute. reflexivity.
Defined.

(** ** Further properties of the link grammar *)

Lemma weave_app_first a g gaps ts :
  weave ((a ++ g) :: gaps) ts = a ++ weave (g :: gaps) ts.
Proof. destruct ts; cbn; [reflexivity|]. now rewrite <- app_assoc. Qed.

Lemma weave_head g gaps ts : ∃ rest, weave (g :: gaps) ts = g ++ rest.
Proof. destruct ts; cbn; [exists []; now rewrite app_nil_r | eauto]. Qed.

Lemma token_form_length t : token_form t → (5 ≤ length t)%nat.
Proof.
  intros (bang & x & tl & -> & _ & [Hne _] & _).
  rewrite !length_app.
  change (length (lit "[[")) with 2%nat. change (length (lit "]]")) with 2%nat.
  destruct x; [contradiction|]. cbn. lia.
Qed.

Lemma match_all_from_weave s : ∀ prev skip,
  ∃ g gaps,
    s = weave (g :: gaps) (Grammar.match_all_from prev skip s)
    ∧ length gaps = length (Grammar.match_all_from prev skip s)
    ∧ (skip `min` length s ≤ length g)%nat.
Proof.
  induction s as [|c s IH]; intros prev skip.
  { exists [], []. cbn. repeat split; lia. }
  assert (Hlater : ∀ k,
            ∃ g gaps,
              c :: s = weave (g :: gaps) (Grammar.match_all_from (Some c) k s)
              ∧ length gaps = length (Grammar.match_all_from (Some c) k s)
              ∧ (S k `min` length (c :: s) ≤ length g)%nat).
  { intros k. destruct (IH (Some c) k) as (g & gaps & Hs & Hl & Hm).
    exists (c :: g), gaps. split; [|split; [exact Hl|cbn; lia]].
    change (c :: g) with ([c] ++ g). rewrite weave_app_first, <- Hs.
    reflexivity. }
  cbn [Grammar.match_all_from].
  destruct skip as [|k]; [|exact (Hlater k)].
  destruct (Grammar.match_here prev (c :: s)) as [n|] eqn:E.
  - apply match_here_sound in E as (_ & t & r & Hs & Hf & ->).
    pose proof (token_form_length t Hf) as Hlen.
    destruct t as [|c' t]; [cbn in Hlen; lia|].
    injection Hs as <- ->.
    change (take (length (c :: t)) (c :: t ++ r)) with (c :: take (length t) (t ++ r)).
    rewrite take_app_length.
    change (length (c :: t) - 1)%nat with (length t - 0)%nat.
    rewrite Nat.sub_0_r.
    destruct (IH (Some c) (length t)) as (g & gaps & Hs & Hl & Hm).
    rewrite length_app in Hm.
    assert (Hg : g = t ++ drop (length t) g).
    { rewrite <- (take_drop (length t) g) at 1. f_equal.
      destruct (weave_head g gaps
                  (Grammar.match_all_from (Some c) (length t) (t ++ r)))
        as [rest Hw].
      pose proof (f_equal (take (length t)) Hs) as Hk.
      rewrite take_app_length, Hw, take_app_le in Hk by lia.
      exact (eq_sym Hk). }
    exists [], (drop (length t) g :: gaps).
    split; [|split; [cbn; now rewrite Hl|cbn; lia]].
    cbn [weave app]. f_equal.
    rewrite Hg, weave_app_first in Hs. apply app_inv_head in Hs.
    f_equal. exact Hs.
  - destruct (Hlater 0%nat) as (g & gaps & Hs & Hl & Hm).
    exists g, gaps. repeat split; auto. cbn. lia.
Qed.

(** X11: the extracted tokens are disjoint pieces of the document in
    document order: the document is the tokens interleaved with the text
    between them, and each token has at least five units. *)
Theorem tokens_are_disjoint_and_ordered document :
  ∃ gaps,
    length gaps = S (length (Grammar.match_all document))
    ∧ document = weave gaps (Grammar.match_all document)
    ∧ Forall (λ t, (5 ≤ length t)%nat) (Grammar.match_all document).
Proof.
  destruct (match_all_from_weave document None 0) as (g & gaps & Hs & Hl & _).
  exists (g :: gaps). split; [cbn; now rewrite Hl|]. split; [exact Hs|].
  apply Forall_forall. intros t Ht.
  apply token_form_length.
  exact (proj1 (match_all_from_sound _ _ _ _ Ht)).
Qed.

Lemma lazy_plus_least ok k x : ∀ r n j,
  Grammar.lazy_plus ok k (x ++ r) = Some n →
  x ≠ [] →
  k r = Some j →
  (∀ x1 x2 j', x = x1 ++ x2 → x1 ≠ [] → x2 ≠ [] →
               k (x2 ++ r) = Some j' →
               (length x1 + j' ≤ length x + j)%nat) →
  (n ≤ length x + j)%nat.
Proof.
  induction x as [|c x IH]; intros r n j H Hne Hj Hmin; [contradiction|].
  cbn [app Grammar.lazy_plus] in H.
  destruct (ok c); [|discriminate].
  destruct (k (x ++ r)) as [j'|] eqn:Hk.
  - injection H as <-.
    destruct x as [|c' x'].
    + cbn in Hk. rewrite Hj in Hk. injection Hk as <-. cbn. lia.
    + specialize (Hmin [c] (c' :: x') j' eq_refl).
      cbn in Hmin |- *. specialize (Hmin ltac:(discriminate) ltac:(discriminate) Hk).
      lia.
  - destruct (Grammar.lazy_plus ok k (x ++ r)) as [n'|] eqn:Hl; [|discriminate].
    injection H as <-.
    destruct x as [|c' x'].
    + cbn in Hk. congruence.
    + assert (n' ≤ length (c' :: x') + j)%nat; [|cbn in *; lia].
      apply (IH r n' j Hl ltac:(discriminate) Hj).
      intros x1 x2 j' Hx H1 H2 Hk'.
      specialize (Hmin (c :: x1) x2 j').
      rewrite Hx in Hmin. specialize (Hmin eq_refl ltac:(discriminate) H2 Hk').
      rewrite Hx. cbn in Hmin. rewrite !length_app in *. cbn in *. lia.
Qed.

Lemma title_group_least tl r j :
  (tl = [] ∨ ∃ y, tl = ch "|" :: y ∧ title_segment y) →
  Grammar.title_group (tl ++ lit "]]" ++ r) = Some j →
  (j ≤ length tl + 2)%nat.
Proof.
  intros [-> | (y & -> & Hne & Hy)] H.
  - cbn in H. injection H as <-. cbn. lia.
  - unfold Grammar.title_group in H. cbn [app] in H.
    rewrite N.eqb_refl in H.
    destruct (lazy_plus_complete Grammar.title_unit Grammar.closing y
                (lit "]]" ++ r) Hne Hy) as [n Hn].
    { rewrite closing_complete. eauto. }
    rewrite Hn in H. cbn in H. injection H as <-.
    assert (n ≤ length y + 2)%nat; [|cbn; lia].
    apply (lazy_plus_least _ _ _ _ _ _ Hn Hne (closing_complete r)).
    intros x1 x2 j' -> _ _ Hc. apply closing_sound in Hc as (_ & _ & ->).
    rewrite length_app. lia.
Qed.

Lemma title_group_after_name_unit c u j :
  Grammar.name_unit c = true →
  Grammar.title_group (c :: u) = Some j → j = 2%nat.
Proof.
  unfold Grammar.name_unit, Grammar.title_group.
  intros [Hc _]%andb_true_iff. apply negb_true_iff in Hc. rewrite Hc.
  intros (_ & _ & ->)%closing_sound. reflexivity.
Qed.

Lemma brackets_least x tl r n :
  name_segment x →
  (tl = [] ∨ ∃ y, tl = ch "|" :: y ∧ title_segment y) →
  Grammar.brackets (lit "[[" ++ x ++ tl ++ lit "]]" ++ r) = Some n →
  (n ≤ length (lit "[[" ++ x ++ tl ++ lit "]]"))%nat.
Proof.
  intros [Hne Hx] Htl. unfold Grammar.brackets.
  change (startsWith (lit "[[") (lit "[[" ++ x ++ tl ++ lit "]]" ++ r))
    with true.
  change (drop 2 (lit "[[" ++ x ++ tl ++ lit "]]" ++ r))
    with (x ++ tl ++ lit "]]" ++ r).
  destruct (Grammar.lazy_plus Grammar.name_unit Grammar.title_group
              (x ++ tl ++ lit "]]" ++ r)) as [n'|] eqn:Hl; [|discriminate].
  cbn. intros [= <-].
  destruct (title_group_complete tl r Htl) as [j Hj].
  pose proof (title_group_least tl r j Htl Hj) as Hjle.
  assert (Hj2 : (2 ≤ j)%nat).
  { apply title_group_sound in Hj as (tl' & r' & _ & _ & ->). lia. }
  assert (n' ≤ length x + j)%nat.
  { apply (lazy_plus_least _ _ _ _ _ _ Hl Hne Hj).
    intros x1 x2 j' -> _ H2 Hk.
    destruct x2 as [|c x2]; [contradiction|].
    apply Forall_app in Hx as [_ Hx2]. inversion Hx2; subst.
    apply title_group_after_name_unit in Hk; [|assumption].
    rewrite length_app. cbn. lia. }
  rewrite !length_app.
  change (length (lit "[[")) with 2%nat. change (length (lit "]]")) with 2%nat.
  lia.
Qed.

(** X12: the token taken at a position is the shortest token of the
    grammar that starts there (both segments are matched lazily): it has
    the form of a token, and no token of the grammar starting at the same
    position is shorter. *)
Theorem match_is_shortest_token prev s n :
  Grammar.match_here prev s = Some n →
  token_form (take n s)
  ∧ ∀ t r, s = t ++ r → token_form t → (n ≤ length t)%nat.
Proof.
  intros H. split.
  { destruct (match_here_sound _ _ _ H) as (_ & t & r & -> & Hf & ->).
    now rewrite take_app_length. }
  intros t r -> (bang & x & tl & -> & Hbang & Hx & Htl).
  unfold Grammar.match_here in H.
  destruct (bool_decide (prev = Some (ch "!"))); [discriminate|].
  rewrite <- !app_assoc in H.
  destruct Hbang as [-> | ->].
  - change ([] ++ lit "[[" ++ x ++ tl ++ lit "]]" ++ r)
      with (ch "[" :: ch "[" :: x ++ tl ++ lit "]]" ++ r) in H.
    change (ch "[" =? ch "!") with false in H. cbn iota in H.
    change (ch "[" :: ch "[" :: x ++ tl ++ lit "]]" ++ r)
      with (lit "[[" ++ x ++ tl ++ lit "]]" ++ r) in H.
    exact (brackets_least x tl r n Hx Htl H).
  - change (lit "!" ++ lit "[[" ++ x ++ tl ++ lit "]]" ++ r)
      with (ch "!" :: lit "[[" ++ x ++ tl ++ lit "]]" ++ r) in H.
    cbn iota in H. rewrite N.eqb_refl in H.
    destruct (brackets_complete x tl r Hx Htl) as [n' Hn'].
    rewrite Hn' in H. cbn in H. injection H as <-.
    pose proof (brackets_least x tl r n' Hx Htl Hn').
    change (length (lit "!" ++ lit "[[" ++ x ++ tl ++ lit "]]"))
      with (S (length (lit "[[" ++ x ++ tl ++ lit "]]"))).
    lia.
Qed.

Lemma match_is_shortest_token_witness :
  let s := lit "[[a]] and [[b]]" in
  token_form (take 5 s)
  ∧ ∀ t r, s = t ++ r → token_form t → (5 ≤ length t)%nat.
Proof.
  intros s.
  apply (match_is_shortest_token None s 5). vm_compute. reflexivity.
Defined.

(** ** The parser on the tokens of the grammar *)

Lemma slice_between {A} (a body z : list A) :
  length z = 2%nat →
  slice_to_end_minus (length a) 2 (a ++ body ++ z) = body.
Proof.
  intros Hz. unfold slice_to_end_minus.
  rewrite !length_app, Hz.
  replace (length a + (length body + 2) - 2)%nat
    with (length (a ++ body)) by (rewrite length_app; lia).
  rewrite app_assoc, take_app_length, drop_app_length. reflexivity.
Qed.

Lemma split_absent c s : includes c s = false → split c s = [s].
Proof. intros H. now rewrite split_unfold, H. Qed.

Lemma split_at_first c x y :
  includes c x = false → split c (x ++ c :: y) = x :: split c y.
Proof.
  intros Hx. induction x as [|a x IH].
  - cbn. now rewrite N.eqb_refl.
  - cbn in Hx. apply orb_false_iff in Hx as [Ha Hx].
    cbn [app split]. rewrite (N.eqb_sym a c), Ha, (IH Hx). reflexivity.
Qed.

Lemma split_two_or_more c y :
  includes c y = true → ∃ p q rest, split c y = p :: q :: rest.
Proof.
  intros H. rewrite split_unfold, H.
  destruct (split_head c (after_first c y)) as [rest ->]. eauto.
Qed.

(** X13: on a token of the grammar the parser recovers the grammar's
    segments: the token is an embed exactly when it has the ["!"], the
    name is the trimmed name segment with the markdown extension removed,
    and the title is the trimmed title segment, except that a title segment
    containing a further ["|"] yields no title at all. *)
Theorem parser_recovers_token_segments bang x tl :
  (bang = [] ∨ bang = lit "!") →
  includes (ch "|") x = false →
  (tl = [] ∨ ∃ y, tl = ch "|" :: y) →
  let m := initialMeta (bang ++ lit "[[" ++ x ++ tl ++ lit "]]") in
  isEmbed m = bool_decide (bang = lit "!")
  ∧ name m = strip_md (trim x)
  ∧ title m = match tl with
              | [] => None
              | _ :: y => if includes (ch "|") y then None else Some (trim y)
              end.
Proof.
  intros Hbang Hx Htl m.
  set (t := bang ++ lit "[[" ++ x ++ tl ++ lit "]]").
  assert (Hemb : startsWith (lit "!") t = bool_decide (bang = lit "!")).
  { destruct Hbang as [-> | ->]; reflexivity. }
  assert (Hparts : linkParts t = map trim (split (ch "|") (x ++ tl))).
  { unfold linkParts. rewrite Hemb. f_equal. f_equal. unfold t.
    destruct Hbang as [-> | ->].
    - rewrite bool_decide_eq_false_2 by discriminate.
      replace ([] ++ lit "[[" ++ x ++ tl ++ lit "]]")
        with (lit "[[" ++ (x ++ tl) ++ lit "]]")
        by (cbn [app]; now rewrite <- app_assoc).
      exact (slice_between (lit "[[") (x ++ tl) (lit "]]") eq_refl).
    - rewrite bool_decide_eq_true_2 by reflexivity.
      replace (lit "!" ++ lit "[[" ++ x ++ tl ++ lit "]]")
        with (lit "![[" ++ (x ++ tl) ++ lit "]]")
        by (cbn [app]; now rewrite <- app_assoc).
      exact (slice_between (lit "![[") (x ++ tl) (lit "]]") eq_refl). }
  assert (Hm : m = initialMeta t) by reflexivity.
  unfold initialMeta in Hm. rewrite Hparts, Hemb in Hm.
  destruct Htl as [-> | [y ->]].
  - rewrite app_nil_r, (split_absent _ _ Hx) in Hm. rewrite Hm. cbn. auto.
  - rewrite (split_at_first _ _ _ Hx) in Hm.
    destruct (includes (ch "|") y) eqn:Hy.
    + destruct (split_two_or_more _ _ Hy) as (p & q & rest & Hs).
      rewrite Hs in Hm. rewrite Hm. cbn. auto.
    + rewrite (split_absent _ _ Hy) in Hm. rewrite Hm. cbn. auto.
Qed.

Lemma parser_recovers_token_segments_witness :
  let m := initialMeta (lit "![[ page.md | My | title ]]") in
  isEmbed m = true ∧ name m = lit "page" ∧ title m = None.
Proof.
  intros m.
  destruct (parser_recovers_token_segments (lit "!") (lit " page.md ")
              (lit "| My | title "))
    as (He & Hn & Ht); [auto | reflexivity | right; eexists; reflexivity |].
  split; [exact He|]. split; [exact Hn|exact Ht].
Defined.

(** ** The extension tests *)

Lemma strip_prefix_ci_sound w : ∀ r t,
  strip_prefix_ci w r = Some t → ∃ E, r = E ++ t ∧ toLowerCase E = w.
Proof.
  induction w as [|a w IH]; intros r t H.
  - cbn in H. destruct r; injection H as <-; exists []; auto.
  - destruct r as [|b r]; [discriminate|]. cbn in H. unfold eq_ci in H.
    destruct (lower b =? a) eqn:E; [|discriminate].
    apply N.eqb_eq in E. destruct (IH _ _ H) as (E' & -> & <-).
    exists (b :: E'). cbn. now rewrite E.
Qed.

Lemma strip_prefix_ci_complete E t :
  strip_prefix_ci (toLowerCase E) (E ++ t) = Some t.
Proof.
  induction E as [|b E IH]; [now destruct t|].
  cbn. unfold eq_ci. now rewrite N.eqb_refl.
Qed.

Lemma space_is_no_letter z :
  is_space z = true → lower z ≠ 100 ∧ lower z ≠ 110.
Proof.
  unfold is_space. intros H.
  repeat (apply orb_true_iff in H as [H|H]);
    try (apply N.eqb_eq in H; subst z; split; discriminate).
  apply andb_true_iff in H as [H1 H2]. apply N.leb_le in H1, H2.
  unfold lower.
  destruct ((65 <=? z) && (z <=? 90)) eqn:E; [|lia].
  apply andb_true_iff in E as [_ E2]. apply N.leb_le in E2. lia.
Qed.

(** The regular expression does not match before the last unit preceding
    the extension. *)
Lemma md_regex_not_earlier a p c e :
  toLowerCase e = lit "md" ∨ toLowerCase e = lit "markdown" →
  md_regex_here (a :: p ++ c :: e) = false.
Proof.
  intros He. unfold md_regex_here.
  assert (Hno : ∀ w, w = lit "md" ∨ w = lit "markdown" →
                     ext_tail w (p ++ c :: e) = false).
  { intros w Hw. unfold ext_tail.
    destruct (strip_prefix_ci w (p ++ c :: e)) as [t|] eqn:Hs; [|reflexivity].
    destruct t as [|sp [|? ?]]; [| |reflexivity].
    - exfalso. apply strip_prefix_ci_sound in Hs as (E & HE & Hlow).
      rewrite app_nil_r in HE. subst E.
      apply (f_equal (@rev N)) in Hlow. unfold toLowerCase in Hlow.
      rewrite map_app, rev_app_distr in Hlow. cbn [map rev] in Hlow.
      rewrite <- app_assoc in Hlow. fold (toLowerCase e) in Hlow.
      destruct He as [He | He], Hw as [-> | ->]; rewrite He in Hlow;
        vm_compute in Hlow; discriminate.
    - destruct (is_space sp) eqn:Hsp; [|reflexivity]. exfalso.
      apply strip_prefix_ci_sound in Hs as (E & HE & _).
      apply (f_equal (@rev N)) in HE.
      rewrite !rev_app_distr in HE. cbn [rev app] in HE.
      rewrite <- app_assoc in HE.
      destruct (space_is_no_letter sp Hsp) as [Hd Hn].
      assert (Hlast : ∃ e', rev e = sp :: e').
      { destruct (rev e) as [|z e'] eqn:Hr.
        - apply (f_equal (@rev N)) in Hr. rewrite rev_involutive in Hr.
          subst e. destruct He as [He | He]; vm_compute in He; discriminate.
        - cbn in HE. injection HE as -> _. eauto. }
      destruct Hlast as [e' Hr].
      assert (Hz : rev (toLowerCase e) = lower sp :: map lower e').
      { unfold toLowerCase. rewrite <- map_rev, Hr. reflexivity. }
      destruct He as [He | He]; rewrite He in Hz.
      + change (rev (lit "md")) with [100; 109] in Hz.
        injection Hz as Hz _. congruence.
      + change (rev (lit "markdown"))
          with [110; 119; 111; 100; 107; 114; 97; 109] in Hz.
        injection Hz as Hz _. congruence. }
  rewrite (Hno (lit "md")), (Hno (lit "markdown")) by auto.
  now rewrite andb_false_r.
Qed.

(** X14: [parts[0].replace(/.(md|markdown)\s?$/i, "")] removes a trailing
    [md] or [markdown] in any letter case together with the one unit before
    it, whatever that unit is (the dot of the pattern is not escaped), as
    long as it is not a line terminator: [notes.md], [notes.MD] and [cmd]
    lose their last three units. *)
Theorem strip_md_removes_extension_and_one_unit s c e :
  is_line_terminator c = false →
  toLowerCase e = lit "md" ∨ toLowerCase e = lit "markdown" →
  strip_md (s ++ c :: e) = s.
Proof.
  intros Hc He. induction s as [|a s IH].
  - cbn [app strip_md]. 
    assert (Hhere : md_regex_here (c :: e) = true).
    { unfold md_regex_here. rewrite Hc. cbn [negb andb]. unfold ext_tail.
      pose proof (strip_prefix_ci_complete e []) as Hs.
      rewrite app_nil_r in Hs.
      destruct He as [He | He]; rewrite He in Hs; rewrite Hs;
        [reflexivity | apply orb_true_r]. }
    now rewrite Hhere.
  - cbn [app]. 
    change (strip_md (a :: s ++ c :: e))
      with (if md_regex_here (a :: s ++ c :: e) then []
            else a :: strip_md (s ++ c :: e)).
    rewrite (md_regex_not_earlier a s c e He), IH. reflexivity.
Qed.

Lemma strip_md_removes_extension_and_one_unit_witness :
  strip_md (lit "notes" ++ ch "." :: lit "MarkDown") = lit "notes"
  ∧ strip_md ([] ++ ch "c" :: lit "md") = [].
Proof.
  split.
  - apply (strip_md_removes_extension_and_one_unit (lit "notes") (ch ".")
             (lit "MarkDown")); [reflexivity | right; reflexivity].
  - apply (strip_md_removes_extension_and_one_unit [] (ch "c") (lit "md"));
      [reflexivity | left; reflexivity].
Defined.

Lemma endsWith_spec p s : endsWith p s = true ↔ ∃ r, s = r ++ p.
Proof.
  unfold endsWith. rewrite startsWith_spec. split.
  - intros [r Hr]. exists (rev r).
    apply (f_equal (@rev N)) in Hr.
    now rewrite rev_involutive, rev_app_distr, rev_involutive in Hr.
  - intros [r ->]. exists (rev r). apply rev_app_distr.
Qed.

(** X15: [isImageFile] accepts exactly the names that end, in any ASCII
    letter case, with one of the six built-in extensions; nothing need
    precede the extension. *)
Theorem isImageFile_iff_extension filename :
  isImageFile filename = true
  ↔ ∃ stem ext, filename = stem ++ ext ∧ toLowerCase ext ∈ imageExtensions.
Proof.
  unfold isImageFile. rewrite existsb_exists. split.
  - intros (ext0 & Hin & He).
    apply endsWith_spec in He as [q Hq].
    exists (take (length q) filename), (drop (length q) filename).
    split; [now rewrite take_drop|].
    unfold toLowerCase in *. rewrite <- skipn_map, Hq.
    rewrite drop_app_length. now apply list_elem_of_In.
  - intros (stem & ext & -> & Hin).
    exists (toLowerCase ext). split; [now apply list_elem_of_In|].
    apply endsWith_spec. exists (toLowerCase stem).
    unfold toLowerCase. apply map_app.
Qed.

Lemma isImageFile_iff_extension_witness :
  isImageFile (lit "Holiday Photo" ++ lit ".JPeG") = true.
Proof.
  apply (proj2 (isImageFile_iff_extension (lit "Holiday Photo" ++ lit ".JPeG"))).
  exists (lit "Holiday Photo"), (lit ".JPeG"). split; [reflexivity|].
  apply list_elem_of_In. vm_compute. auto.
Defined.

(** ** The image asset resolver *)

(** X16: the shape of what [findImageFile] returns.  Every result has an
    [href] that starts with ["/"].  A name that starts with ["/"] always
    gets a result, whose [href] is the name itself and whose [exists] is
    what [existsSync] says of the name joined to the base directory.  A
    relative name without a referencing path gets [null].  A bare name gets
    a result only when a file was found: never one with [exists = false]. *)
Theorem findImageFile_result_shape fs imagePath baseDir filePathStem :
  (∀ res, findImageFile fs imagePath baseDir filePathStem = Some res →
          startsWith (lit "/") (ir_href res) = true)
  ∧ (startsWith (lit "/") imagePath = true →
     findImageFile fs imagePath baseDir filePathStem
     = Some {| ir_exists :=
                 existsSync fs (path_join fs [baseDir; drop 1 imagePath]);
               ir_href := imagePath;
               fullPath := path_join fs [baseDir; drop 1 imagePath] |})
  ∧ (startsWith (lit "/") imagePath = false →
     startsWith (lit "./") imagePath || startsWith (lit "../") imagePath = true →
     truthy filePathStem = false →
     findImageFile fs imagePath baseDir filePathStem = None)
  ∧ (startsWith (lit "/") imagePath = false →
     startsWith (lit "./") imagePath || startsWith (lit "../") imagePath = false →
     ∀ res, findImageFile fs imagePath baseDir filePathStem = Some res →
            ir_exists res = true).
Proof.
  unfold findImageFile. repeat split.
  - intros res H.
    destruct (startsWith (lit "/") imagePath) eqn:Ha.
    { injection H as <-. exact Ha. }
    destruct (startsWith (lit "./") imagePath
              || startsWith (lit "../") imagePath).
    { destruct filePathStem as [[|c st]|]; try discriminate.
      injection H as <-. reflexivity. }
    destruct (List.find _ _); [injection H as <-; reflexivity|].
    destruct (findFileRecursively _ _ _ _) as [[|c p]|]; try discriminate.
    injection H as <-. reflexivity.
  - intros ->. reflexivity.
  - intros -> -> Hs. destruct filePathStem as [[|c st]|]; try discriminate;
      reflexivity.
  - intros -> -> res H.
    destruct (List.find _ _); [injection H as <-; reflexivity|].
    destruct (findFileRecursively _ _ _ _) as [[|c p]|]; try discriminate.
    injection H as <-. reflexivity.
Qed.

Lemma findImageFile_result_shape_witness :
  findImageFile noFiles (lit "/img/logo.svg") (lit "/site") None
  = Some {| ir_exists := false; ir_href := lit "/img/logo.svg";
            fullPath := lit "/site/img/logo.svg" |}
  ∧ findImageFile noFiles (lit "../logo.svg") (lit "/site") None = None.
Proof.
  destruct (findImageFile_result_shape noFiles (lit "/img/logo.svg")
              (lit "/site") None) as (_ & Habs & _).
  destruct (findImageFile_result_shape noFiles (lit "../logo.svg")
              (lit "/site") None) as (_ & _ & Hrel & _).
  split.
  - exact (Habs eq_refl).
  - exact (Hrel eq_refl eq_refl eq_refl).
Defined.

Lemma FsNode_nested_ind (P : FsNode → Prop) :
  P FsFile →
  (∀ entries, Forall (λ e, P e.2) entries → P (FsDirectory entries)) →
  P FsUnreadable → P FsBroken → P FsOther →
  ∀ node, P node.
Proof.
  intros Hf Hd Hu Hb Ho.
  fix IH 1. intros [|entries| | |].
  - exact Hf.
  - apply Hd. induction entries as [|[d n] es IHes]; constructor.
    + apply IH.
    + exact IHes.
  - exact Hu.
  - exact Hb.
  - exact Ho.
Qed.

Lemma findFileRecursively_nil fs dir f :
  findFileRecursively fs (FsDirectory []) dir f = None.
Proof. reflexivity. Qed.

Lemma findFileRecursively_cons fs file n es dir f :
  findFileRecursively fs (FsDirectory ((file, n) :: es)) dir f =
    match n with
    | FsBroken => None
    | FsFile =>
        if bool_decide (file = f) then Some (path_join fs [dir; file])
        else findFileRecursively fs (FsDirectory es) dir f
    | FsDirectory _ | FsUnreadable =>
        match findFileRecursively fs n (path_join fs [dir; file]) f with
        | Some (c :: p) => Some (c :: p)
        | _ => findFileRecursively fs (FsDirectory es) dir f
        end
    | FsOther => findFileRecursively fs (FsDirectory es) dir f
    end.
Proof. destruct n; reflexivity. Qed.

(** What a successful recursive search has found. *)
Lemma findFileRecursively_found fs node : ∀ dir f p,
  findFileRecursively fs node dir f = Some p →
  contains_file f node ∧ ∃ d, p = path_join fs [d; f].
Proof.
  induction node as [|entries IH| | |] using FsNode_nested_ind;
    intros dir f p H; try discriminate.
  induction entries as [|[file n] es IHes].
  - discriminate.
  - rewrite findFileRecursively_cons in H.
    apply Forall_cons in IH as [IHn IHrest].
    assert (Hrest : findFileRecursively fs (FsDirectory es) dir f = Some p →
                    contains_file f (FsDirectory ((file, n) :: es))
                    ∧ ∃ d, p = path_join fs [d; f]).
    { intros Hr. destruct (IHes IHrest Hr) as [Hc Hd]. split; [|exact Hd].
      inversion Hc; subst.
      - apply contains_here. now apply list_elem_of_further.
      - eapply contains_below; [|eassumption].
        apply list_elem_of_further. eassumption. }
    assert (Hsub : ∀ q, findFileRecursively fs n (path_join fs [dir; file]) f
                        = Some q →
                   contains_file f (FsDirectory ((file, n) :: es))
                   ∧ ∃ d, q = path_join fs [d; f]).
    { intros q Hq. cbn in IHn. destruct (IHn _ _ _ Hq) as [Hc Hd].
      split; [|exact Hd].
      eapply contains_below; [apply list_elem_of_here|exact Hc]. }
    destruct n as [|sub| | |].
    + case_bool_decide as Hname; [|auto].
      injection H as <-. subst file. split; [|eauto].
      apply contains_here. apply list_elem_of_here.
    + destruct (findFileRecursively fs (FsDirectory sub) _ f) as [[|c q]|] eqn:Hq;
        [exact (Hrest H) | | exact (Hrest H)].
      injection H as <-. exact (Hsub _ eq_refl).
    + cbn in H. auto.
    + discriminate.
    + auto.
Qed.

(** X17: a path returned by the recursive search is the join of some
    directory path with the file name, and a regular file of that name does
    occur in the tree that was searched. *)
Theorem findFileRecursively_sound fs node : ∀ dir f p,
  findFileRecursively fs node dir f = Some p →
  contains_file f node ∧ ∃ d, p = path_join fs [d; f].
Proof. apply findFileRecursively_found. Qed.

Lemma findFileRecursively_sound_witness :
  let tree := FsDirectory [(lit "notes", FsDirectory [(lit "a.png", FsFile)])] in
  contains_file (lit "a.png") tree
  ∧ ∃ d, lit "/site/notes/a.png" = path_join noFiles [d; lit "a.png"].
Proof.
  intros tree.
  apply (findFileRecursively_sound noFiles tree (lit "/site") (lit "a.png")
           (lit "/site/notes/a.png")).
  vm_compute. reflexivity.
Defined.

(** The recursive search reaches every file of a readable tree. *)
Lemma findFileRecursively_reaches fs node dir f :
  (∀ a b, path_join fs [a; b] ≠ []) →
  no_broken node = true →
  contains_file f node →
  ∃ c p, findFileRecursively fs node dir f = Some (c :: p).
Proof.
  intros Hjoin Hnb Hc. revert dir Hnb.
  assert (Hshape : ∀ node dir q,
            findFileRecursively fs node dir f = Some q → ∃ c p, q = c :: p).
  { intros n d q Hq.
    destruct (findFileRecursively_found fs n d f q Hq) as [_ [d' ->]].
    destruct (path_join fs [d'; f]) as [|c p] eqn:E; [|eauto].
    now apply Hjoin in E. }
  assert (Hloop : ∀ entries dir,
            no_broken (FsDirectory entries) = true →
            (∃ file n, (file, n) ∈ entries
                       ∧ ((n = FsFile ∧ file = f)
                          ∨ ∃ c p, findFileRecursively fs n
                                     (path_join fs [dir; file]) f
                                   = Some (c :: p))) →
            ∃ c p, findFileRecursively fs (FsDirectory entries) dir f
                   = Some (c :: p)).
  { intros entries dir0 Hnb (file & n & Hin & Hhit).
    induction entries as [|[file' n'] es IHes]; [inversion Hin|].
    rewrite findFileRecursively_cons.
    cbn [no_broken forallb] in Hnb. apply andb_true_iff in Hnb as [Hn' Hes].
    cbn in Hn'.
    apply elem_of_cons in Hin as [Heq | Hin].
    - injection Heq as Hfile Hn. subst file' n'.
      destruct Hhit as [[-> ->] | (c & p & Hq)].
      + rewrite bool_decide_eq_true_2 by reflexivity.
        destruct (path_join fs [dir0; f]) as [|c p] eqn:E; [|eauto].
        now apply Hjoin in E.
      + destruct n as [|sub| | |].
        * cbn in Hq. discriminate.
        * rewrite Hq. eauto.
        * cbn in Hq. discriminate.
        * discriminate.
        * cbn in Hq. discriminate.
    - specialize (IHes Hes Hin).
      destruct n' as [|sub| | |].
      + case_bool_decide; [|exact IHes].
        destruct (path_join fs [dir0; file']) as [|c p] eqn:E; [|eauto].
        now apply Hjoin in E.
      + destruct (findFileRecursively fs (FsDirectory sub) _ f)
          as [[|c q]|] eqn:Hq; eauto.
      + cbn. exact IHes.
      + discriminate.
      + exact IHes. }
  induction Hc as [entries Hin | entries d sub Hin Hsub IH]; intros dir Hnb.
  - apply Hloop; [exact Hnb|]. exists f, FsFile. auto.
  - apply Hloop; [exact Hnb|]. exists d, sub. split; [exact Hin|]. right.
    apply IH. cbn [no_broken] in Hnb.
    rewrite forallb_forall in Hnb.
    apply list_elem_of_In in Hin. exact (Hnb _ Hin).
Qed.

(** X18: in a tree without failing [statSync], and with a [path.join] that
    never yields the empty string, the recursive search finds a file
    whenever a regular file of that name occurs anywhere in the tree. *)
Theorem findFileRecursively_complete fs node dir f :
  (∀ a b, path_join fs [a; b] ≠ []) →
  no_broken node = true →
  contains_file f node →
  ∃ c p, findFileRecursively fs node dir f = Some (c :: p).
Proof. apply findFileRecursively_reaches. Qed.

Lemma findFileRecursively_complete_witness :
  let tree := FsDirectory [(lit "docs", FsUnreadable);
                           (lit "img", FsDirectory [(lit "a.png", FsFile)])] in
  ∃ c p, findFileRecursively noFiles tree (lit "/site") (lit "a.png")
         = Some (c :: p).
Proof.
  intros tree.
  apply (findFileRecursively_complete noFiles tree (lit "/site") (lit "a.png")).
  - intros a b H. change (path_join noFiles [a; b]) with (a ++ lit "/" ++ b) in H.
    apply (f_equal length) in H. rewrite !length_app in H.
    change (length (lit "/")) with 1%nat in H. simpl in H. lia.
  - reflexivity.
  - eapply contains_below.
    + apply list_elem_of_further, list_elem_of_here.
    + apply contains_here, list_elem_of_here.
Defined.

(** ** The render functions on the records of the parser *)

(** X19: with stubs switched off ([stubUrl] is [false]), a record that
    [parseSingle] built for an unresolved link and left with the
    ['default'] resolver is rendered by [defaultResolvingFn] as the raw
    token itself when it has no anchor, and as a link to ["false#anchor"]
    when it has one. *)
Theorem unresolved_default_link_rendering encodeHTML fs this l pd stem s r s' :
  stubUrl (opts this) = jfalse →
  linkCache s !! l = None →
  parseSingle fs this l pd stem s = (Return r, s') →
  ∃ m, objects s' !! r = Some m
       ∧ (exists_ m = false →
          resolvingFnName m = lit "default" →
          defaultResolvingFn encodeHTML m
          = match anchor m with
            | Some (c :: a) =>
                lit "<a href=" ++ dquote ++ lit "false#" ++ (c :: a) ++ dquote
                ++ lit ">" ++ encodeHTML (default (name m) (title m))
                ++ lit "</a>"
            | _ => l
            end).
Proof.
  intros Hstub Hc H.
  destruct (fresh_record _ _ _ _ _ _ _ _ Hc H)
    as (m0 & m & H0 & -> & HO & _ & Hl & _ & _ & _ & _ & Hcases).
  exists m. split; [rewrite HO; apply list_lookup_middle; reflexivity|].
  intros He Hfn.
  assert (Hh : href m = jfalse).
  { destruct Hcases as [C|[C|[C|[C|C]]]].
    - destruct C as (_ & _ & He' & _). congruence.
    - destruct C as (_ & _ & _ & _ & _ & _ & -> & _). exact Hstub.
    - destruct C as (_ & He' & _). congruence.
    - destruct C as (_ & _ & _ & _ & _ & _ & _ & -> & _). exact Hstub.
    - destruct C as (_ & _ & _ & _ & Hd & Hn & _).
      rewrite <- Hn, Hfn in Hd. vm_compute in Hd. discriminate. }
  unfold defaultResolvingFn. rewrite Hh, Hl.
  destruct (anchor m) as [[|c a]|]; reflexivity.
Qed.

Lemma unresolved_default_link_rendering_witness :
  let this := {| opts := {| resolvingFns := None; stubUrl := jfalse |};
                 inputDir := lit "/site" |} in
  let out := parseSingle noFiles this (lit "[[ghost#top]]") emptyDirectory None
               emptyState in
  ∃ m, objects out.2 !! 0%nat = Some m
       ∧ defaultResolvingFn (λ x, x) m
         = lit "<a href=" ++ dquote ++ lit "false#top" ++ dquote ++ lit ">"
           ++ lit "ghost" ++ lit "</a>".
Proof.
  intros this out.
  destruct (unresolved_default_link_rendering (λ x, x) noFiles this
              (lit "[[ghost#top]]") emptyDirectory None emptyState 0%nat out.2)
    as (m & Hm & Hrender);
    [reflexivity | vm_compute; reflexivity | vm_compute; reflexivity |].
  exists m. split; [exact Hm|].
  assert (Hm' : objects out.2 !! 0%nat
                = Some (set_href jfalse
                          (set_anchor (Some (lit "top"))
                             (set_name (lit "ghost")
                                (initialMeta (lit "[[ghost#top]]"))))))
    by (vm_compute; reflexivity).
  rewrite Hm' in Hm. injection Hm as <-.
  exact (Hrender eq_refl eq_refl).
Defined.

(** X20: a record that [parseSingle] leaves with the ['image-embed']
    resolver is always rendered by [imageEmbedFn]: its [href] is a string
    that already starts with ["/"] and is used unchanged as [src].  An
    image record whose file was not found is rendered as nothing. *)
Theorem image_embed_records_render encodeHTML fs this l pd stem s r s' :
  linkCache s !! l = None →
  parseSingle fs this l pd stem s = (Return r, s') →
  ∃ m, objects s' !! r = Some m
       ∧ (resolvingFnName m = lit "image-embed" →
          unregistered (opts this) (lit "image-embed") = true →
          ∃ h rest,
            href m = jstr h ∧ startsWith (lit "/") h = true
            ∧ imageEmbedFn encodeHTML m
              = Html (lit "<img src=" ++ dquote ++ h ++ dquote ++ rest))
       ∧ (isImage m = true → exists_ m = false →
          imageEmbedFn encodeHTML m = Nothing).
Proof.
  intros Hc H.
  destruct (fresh_record _ _ _ _ _ _ _ _ Hc H)
    as (m0 & m & H0 & -> & HO & _ & _ & _ & _ & _ & _ & Hcases).
  exists m. split; [rewrite HO; apply list_lookup_middle; reflexivity|].
  destruct (localSteps_untouched _ _ _ _ _ H0) as (_ & _ & _ & Hfn0).
  split.
  - intros Hfn Hun.
    assert (Hm0 : resolvingFnName m0 ≠ lit "image-embed").
    { destruct Hfn0 as [-> | [_ Hreg]].
      - destruct (isEmbed m0); vm_compute; discriminate.
      - intros E. rewrite E in Hreg. congruence. }
    destruct Hcases as [C|[C|[C|[C|C]]]].
    + destruct C as (Hi & _ & He & _ & _ & _ & (res & Hf & _ & Hh & _) & _).
      assert (Hroot : startsWith (lit "/") (ir_href res) = true).
      { unfold findImageFile in Hf.
        destruct (startsWith (lit "/") (name m0)) eqn:Ha.
        { injection Hf as <-. exact Ha. }
        destruct (startsWith (lit "./") (name m0)
                  || startsWith (lit "../") (name m0)).
        { destruct stem as [[|c st]|]; try discriminate.
          injection Hf as <-. reflexivity. }
        destruct (List.find _ _); [injection Hf as <-; reflexivity|].
        destruct (findFileRecursively _ _ _ _) as [[|c p]|]; try discriminate.
        injection Hf as <-. reflexivity. }
      exists (ir_href res). eexists. split; [exact Hh|]. split; [exact Hroot|].
      unfold imageEmbedFn. rewrite He, Hi, Hh, Hroot. cbn [negb orb].
      reflexivity.
    + destruct C as (_ & _ & _ & _ & Hn & _). rewrite Hn in Hfn.
      vm_compute in Hfn. discriminate.
    + destruct C as (_ & _ & Hn & _). congruence.
    + destruct C as (_ & _ & _ & _ & _ & Hn & _). rewrite Hn in Hfn.
      destruct (isEmbed m0); [vm_compute in Hfn; discriminate|congruence].
    + destruct C as (_ & _ & _ & _ & _ & Hn & _). congruence.
  - intros Hi He. unfold imageEmbedFn. now rewrite He.
Qed.

Lemma image_embed_records_render_witness :
  let disk :=
    {| existsSync := λ _, true;
       readTree := λ _, FsDirectory [];
       path_join := join (lit "/");
       path_resolve := λ l, default [] (last l);
       path_relative := λ from to, drop (S (length from)) to;
       path_dirname := λ p, p;
       path_basename := λ p _, p;
       path_extname := λ _, [] |} in
  let out := parseSingle disk testParser (lit "![[pic.png|Logo]]")
               emptyDirectory None emptyState in
  ∃ m h rest,
    objects out.2 !! 0%nat = Some m
    ∧ href m = jstr h ∧ startsWith (lit "/") h = true
    ∧ imageEmbedFn (λ x, x) m
      = Html (lit "<img src=" ++ dquote ++ h ++ dquote ++ rest).
Proof.
  intros disk out.
  destruct (image_embed_records_render (λ x, x) disk testParser
              (lit "![[pic.png|Logo]]") emptyDirectory None emptyState 0%nat
              out.2)
    as (m & Hm & Hrender & _);
    [vm_compute; reflexivity | vm_compute; reflexivity |].
  assert (Hfn : ∃ m', objects out.2 !! 0%nat = Some m'
                      ∧ resolvingFnName m' = lit "image-embed")
    by (eexists; vm_compute; auto).
  destruct Hfn as (m' & Hm' & Hfn).
  rewrite Hm' in Hm. injection Hm as <-.
  destruct (Hrender Hfn) as (h & rest & Hh & Hroot & Hhtml);
    [vm_compute; reflexivity|].
  exists m', h, rest. auto.
Defined.

Lemma leading_digits_app w rest :
  forallb is_digit w = true →
  match rest with [] => True | c :: _ => is_digit c = false end →
  leading_digits (w ++ rest) = w.
Proof.
  intros Hw Hrest. induction w as [|d w IH].
  - destruct rest as [|c rest]; [reflexivity|]. cbn. now rewrite Hrest.
  - cbn in Hw. apply andb_true_iff in Hw as [Hd Hw].
    cbn [app leading_digits]. rewrite Hd, (IH Hw). reflexivity.
Qed.

(** X21: [imageEmbedFn] reads a title of the form [W] or [WxH] (decimal
    digits) as a size: the [img] gets [width="Wpx"], the height is dropped,
    and the alt text stays the file name without directories and
    extension. *)
Theorem image_size_title_sets_width encodeHTML l h w height :
  exists_ l = true → isImage l = true → href l = jstr h →
  w ≠ [] → forallb is_digit w = true →
  forallb is_digit height = true →
  title l = Some w ∨ (height ≠ [] ∧ title l = Some (w ++ ch "x" :: height)) →
  imageEmbedFn encodeHTML l
  = Html (lit "<img src=" ++ dquote
          ++ (if startsWith (lit "/") h then h else lit "/" ++ h) ++ dquote
          ++ lit " alt=" ++ dquote
          ++ encodeHTML (strip_ext (default [] (last (split (ch "/") (name l)))))
          ++ dquote
          ++ (lit " width=" ++ dquote ++ w ++ lit "px" ++ dquote)
          ++ lit " />").
Proof.
  intros He Hi Hh Hne Hw Hhd Ht.
  assert (Hsize : ∃ c t, title l = Some (c :: t)
                         ∧ sizeMatch (c :: t) = Some w).
  { destruct w as [|d w']; [contradiction|].
    destruct Ht as [Ht | [Hhne Ht]].
    - exists d, w'. split; [exact Ht|]. unfold sizeMatch.
      pose proof (leading_digits_app (d :: w') [] Hw I) as Hl.
      rewrite app_nil_r in Hl. rewrite Hl, drop_all. reflexivity.
    - exists d, (w' ++ ch "x" :: height). split; [exact Ht|].
      unfold sizeMatch.
      change (d :: w' ++ ch "x" :: height)
        with ((d :: w') ++ ch "x" :: height).
      rewrite (leading_digits_app (d :: w') (ch "x" :: height) Hw eq_refl).
      rewrite drop_app_length.
      destruct height as [|x hs]; [contradiction|].
      rewrite N.eqb_refl, Hhd. reflexivity. }
  destruct Hsize as (c & t & Htl & Hs).
  unfold imageEmbedFn. rewrite He, Hi, Hh, Htl, Hs. cbn [negb orb].
  destruct w as [|d w']; [contradiction|].
  destruct (startsWith (lit "/") h); reflexivity.
Qed.

Lemma image_size_title_sets_width_witness :
  let l := set_href (jstr (lit "/img/Stick Man.svg"))
             (set_exists true
                (set_isImage true (initialMeta (lit "![[Stick Man.svg|100x50]]")))) in
  imageEmbedFn (λ x, x) l
  = Html (lit "<img src=" ++ dquote ++ lit "/img/Stick Man.svg" ++ dquote
          ++ lit " alt=" ++ dquote ++ lit "Stick Man" ++ dquote
          ++ lit " width=" ++ dquote ++ lit "100px" ++ dquote ++ lit " />").
Proof.
  intros l.
  refine (eq_trans
            (image_size_title_sets_width (λ x, x) l (lit "/img/Stick Man.svg")
               (lit "100") (lit "50") _ _ _ _ _ _ _) _);
    try reflexivity; try discriminate;
    try (right; split; [discriminate|reflexivity]).
Defined.

(** ** Plain links and the file system; white space *)

(** X22: a token that is not an embed is interpreted without the file
    system: the outcome of [parseSingle] is the same for every host and
    every input directory. *)
Theorem plain_links_ignore_the_file_system
  fs1 fs2 this1 this2 l pd stem s :
  startsWith (lit "!") l = false →
  opts this1 = opts this2 →
  parseSingle fs1 this1 l pd stem s = parseSingle fs2 this2 l pd stem s.
Proof.
  intros Hl Hopts.
  destruct (linkCache s !! l) as [r|] eqn:Hc.
  { now rewrite !(parseSingle_hit _ _ _ _ _ _ _ Hc). }
  rewrite !(parseSingle_miss _ _ _ _ _ _ Hc).
  assert (Hloc : localSteps this1 pd l stem = localSteps this2 pd l stem).
  { unfold localSteps, resolverStep. now rewrite Hopts. }
  rewrite <- Hloc.
  destruct (localSteps this1 pd l stem) as [m0|e] eqn:H0; [|reflexivity].
  destruct (localSteps_fields _ _ _ _ _ H0) as (He & _).
  assert (Himg : ∀ fs this, imageStep fs this l stem m0 s = (Return m0, s)).
  { intros fs this. unfold imageStep. now rewrite He, Hl. }
  rewrite !Himg.
  assert (Hlook : lookupStep this1 pd l m0 s = lookupStep this2 pd l m0 s).
  { unfold lookupStep. now rewrite Hopts. }
  now rewrite Hlook.
Qed.

Lemma plain_links_ignore_the_file_system_witness :
  let disk :=
    {| existsSync := λ _, true;
       readTree := λ _, FsDirectory [(lit "photo.JPG", FsFile)];
       path_join := join (lit "/");
       path_resolve := λ l, default [] (last l);
       path_relative := λ from to, drop (S (length from)) to;
       path_dirname := λ p, p;
       path_basename := λ p _, p;
       path_extname := λ _, [] |} in
  parseSingle disk testParser (lit "[[photo.JPG]]") emptyDirectory None
    emptyState
  = parseSingle noFiles
      {| opts := opts testParser; inputDir := lit "/elsewhere" |}
      (lit "[[photo.JPG]]") emptyDirectory None emptyState.
Proof.
  intros disk.
  apply (plain_links_ignore_the_file_system disk noFiles testParser
           {| opts := opts testParser; inputDir := lit "/elsewhere" |});
    reflexivity.
Defined.

Lemma trimStart_head x :
  match trimStart x with
  | [] => True
  | c :: _ => is_space c = false
  end.
Proof.
  induction x as [|a x IH]; [exact I|].
  cbn [trimStart]. destruct (is_space a) eqn:E; [exact IH|exact E].
Qed.

Lemma trimStart_snoc u c :
  is_space c = false → ∃ w, trimStart (u ++ [c]) = w ++ [c].
Proof.
  intros Hc. induction u as [|a u [w IH]].
  - exists []. cbn. now rewrite Hc.
  - cbn [app trimStart]. destruct (is_space a).
    + eauto.
    + exists (a :: u). reflexivity.
Qed.

(** What [trim] returns is empty or starts and ends with a unit that is
    not white space. *)
Lemma trim_ends x :
  (∀ c, head (trim x) = Some c → is_space c = false)
  ∧ (∀ c, last (trim x) = Some c → is_space c = false).
Proof.
  unfold trim, trimEnd. pose proof (trimStart_head x) as Hh.
  destruct (trimStart x) as [|c y]; [split; intros ?; discriminate|].
  split.
  - intros c' Hc'.
    destruct (trimStart_snoc (rev y) c Hh) as [w Hw].
    cbn [rev] in Hc'. rewrite Hw, rev_app_distr in Hc'.
    cbn in Hc'. congruence.
  - intros z Hz. pose proof (trimStart_head (rev (c :: y))) as Ht.
    destruct (trimStart (rev (c :: y))) as [|z' t]; [discriminate|].
    cbn [rev] in Hz. rewrite last_snoc in Hz. congruence.
Qed.

(** X23: the title and the anchor the parser reads from a token never
    carry white space at either end: in the record a call returns, the
    anchor is trimmed, and so is the title unless it was taken from the
    page index or the file name. *)
Theorem title_and_anchor_are_trimmed fs this l pd stem s r s' :
  linkCache s !! l = None →
  parseSingle fs this l pd stem s = (Return r, s') →
  ∃ m, objects s' !! r = Some m
       ∧ (∀ a c, anchor m = Some a →
                 head a = Some c ∨ last a = Some c → is_space c = false)
       ∧ (∀ t c, title (initialMeta l) = Some t →
                 head t = Some c ∨ last t = Some c → is_space c = false).
Proof.
  intros Hc H.
  destruct (parseSingle_return_fields _ _ _ _ _ _ _ _ Hc H)
    as (m0 & m & H0 & O & _ & A & _).
  exists m. split; [exact O|].
  destruct (localSteps_fields _ _ _ _ _ H0) as (_ & _ & _ & _ & _ & A0).
  assert (Hmap : ∀ (parts : list jsstring) i y c,
            map trim parts !! i = Some y →
            head y = Some c ∨ last y = Some c → is_space c = false).
  { intros parts i y c Hy Hc'.
    rewrite list_lookup_fmap in Hy.
    destruct (parts !! i) as [x|]; [|discriminate]. injection Hy as <-.
    destruct (trim_ends x) as [Hhd Hla]. destruct Hc'; eauto. }
  split.
  - intros a c Ha. rewrite A, A0 in Ha. unfold anchorStep in Ha.
    destruct (includes _ _); [|discriminate].
    destruct (negb _); [|discriminate].
    cbn in Ha. eapply Hmap. exact Ha.
  - intros t c Ht. unfold initialMeta in Ht. cbn [title] in Ht.
    unfold linkParts in Ht.
    destruct (map trim _) as [|p0 [|t0 [|? ?]]] eqn:Hp; try discriminate.
    injection Ht as <-. intros Hcase.
    eapply (Hmap _ 1%nat t0 c); [rewrite Hp; reflexivity | exact Hcase].
Qed.

Lemma title_and_anchor_are_trimmed_witness :
  let out := parseSingle noFiles testParser (lit "[[ page # top |  Go up ]]")
               emptyDirectory None emptyState in
  ∃ m, objects out.2 !! 0%nat = Some m
       ∧ anchor m = Some (lit "top")
       ∧ title m = Some (lit "Go up").
Proof.
  intros out.
  destruct (title_and_anchor_are_trimmed noFiles testParser
              (lit "[[ page # top |  Go up ]]") emptyDirectory None emptyState
              0%nat out.2) as (m & Hm & _);
    [vm_compute; reflexivity | vm_compute; reflexivity |].
  exists m. split; [exact Hm|].
  assert (Hm' : ∃ m', objects out.2 !! 0%nat = Some m'
                      ∧ anchor m' = Some (lit "top")
                      ∧ title m' = Some (lit "Go up"))
    by (eexists; vm_compute; auto).
  destruct Hm' as (m' & Hm' & Ha & Ht).
  rewrite Hm' in Hm. injection Hm as <-. auto.
Defined.

(** X24: a bare image name is found whenever a regular file of that name
    occurs anywhere below the base directory, provided no [statSync] fails
    in that tree and [path.join] never yields the empty string; the result
    then has [exists = true]. *)
Theorem bare_image_name_is_found fs imagePath baseDir filePathStem :
  (∀ a b, path_join fs [a; b] ≠ []) →
  startsWith (lit "/") imagePath = false →
  startsWith (lit "./") imagePath || startsWith (lit "../") imagePath = false →
  no_broken (readTree fs baseDir) = true →
  contains_file imagePath (readTree fs baseDir) →
  ∃ res, findImageFile fs imagePath baseDir filePathStem = Some res
         ∧ ir_exists res = true.
Proof.
  intros Hjoin Ha Hr Hnb Hc. unfold findImageFile. rewrite Ha, Hr.
  destruct (List.find _ _); [eauto|].
  destruct (findFileRecursively_reaches fs _ baseDir imagePath Hjoin Hnb Hc)
    as (c & p & ->).
  eauto.
Qed.

Lemma bare_image_name_is_found_witness :
  let disk :=
    {| existsSync := λ _, false;
       readTree := λ _, FsDirectory
                          [(lit "img", FsDirectory [(lit "a.png", FsFile)])];
       path_join := join (lit "/");
       path_resolve := λ l, default [] (last l);
       path_relative := λ from to, drop (S (length from)) to;
       path_dirname := λ p, p;
       path_basename := λ p _, p;
       path_extname := λ _, [] |} in
  ∃ res, findImageFile disk (lit "a.png") (lit "/site") None = Some res
         ∧ ir_exists res = true.
Proof.
  intros disk.
  apply (bare_image_name_is_found disk (lit "a.png") (lit "/site") None).
  - intros a b H. change (path_join disk [a; b]) with (a ++ lit "/" ++ b) in H.
    apply (f_equal length) in H. rewrite !length_app in H.
    change (length (lit "/")) with 1%nat in H. simpl in H. lia.
  - reflexivity.
  - reflexivity.
  - reflexivity.
  - eapply contains_below.
    + apply list_elem_of_here.
    + apply contains_here, list_elem_of_here.
Defined.
